(** * mdmv: moving Markdown files together with their attachments

    A shallow embedding of the move-planning and execution engine of
    [mdmv] (package [internal], file.go, and package [main], main.go) and
    the properties of it that the specification states.

    The Go code is written against the [afero.Fs] interface; here that
    interface is a type class over an explicit file-system state, the
    program threads the state (and the process-wide log) through every
    call, and a [*File] receiver is passed in and handed back, so that the
    in-place update of [f.Path] is visible in the result.  Paths follow
    [path/filepath] on a Unix system (separator [/]). *)

From Stdlib Require Import Ascii.
From stdpp Require Import gmap strings list fin_maps sorting pretty.

(** ** Strings: the functions of package [strings] that the code calls *)

Module gostrings.

(** [strings.HasPrefix s prefix]. *)
Definition HasPrefix (s prefix : string) : bool := String.prefix prefix s.

(** [strings.Contains s substr]. *)
Fixpoint Contains (s substr : string) : bool :=
  HasPrefix s substr ||
  match s with
  | EmptyString => false
  | String _ r => Contains r substr
  end.

(** [strings.Replace s old new n] for a non-empty [old]; [n = None] is
    Go's [n < 0] (no limit).  Occurrences are replaced from the left and
    do not overlap: [skip] counts the bytes of a replaced occurrence that
    are still to be dropped. *)
Fixpoint Replace_go (old new : string) (n : option nat) (skip : nat)
    (s : string) : string :=
  match s with
  | EmptyString => EmptyString
  | String c r =>
      match skip with
      | S k => Replace_go old new n k r
      | O =>
          match n with
          | Some O => s
          | _ =>
              if HasPrefix s old
              then new +:+
                   Replace_go old new (Nat.pred <$> n) (String.length old - 1) r
              else String c (Replace_go old new n 0 r)
          end
      end
  end.

Definition Replace (s old new : string) (n : option nat) : string :=
  Replace_go old new n 0 s.

(** [strings.ReplaceAll s old new = strings.Replace s old new (-1)]. *)
Definition ReplaceAll (s old new : string) : string := Replace s old new None.

Fixpoint mem_char (c : ascii) (cutset : string) : bool :=
  match cutset with
  | EmptyString => false
  | String d r => if decide (c = d) then true else mem_char c r
  end.

(** [strings.TrimLeft s cutset] (the cut sets used are ASCII). *)
Fixpoint TrimLeft (s cutset : string) : string :=
  match s with
  | EmptyString => EmptyString
  | String c r => if mem_char c cutset then TrimLeft r cutset else s
  end.

(** [strings.TrimSuffix s suffix]. *)
Fixpoint TrimSuffix (s suffix : string) : string :=
  if decide (s = suffix) then EmptyString
  else match s with
       | EmptyString => EmptyString
       | String c r =>
           if String.length suffix <? String.length s
           then String c (TrimSuffix r suffix) else s
       end.

Definition lower_char (c : ascii) : ascii :=
  let n := nat_of_ascii c in
  if (65 <=? n) && (n <=? 90) then ascii_of_nat (n + 32) else c.

(** A byte of the ASCII range. *)
Definition is_ascii (c : ascii) : bool := nat_of_ascii c <? 128.

(** [strings.ToLower] on a string of ASCII bytes: the letters [A]-[Z] are
    mapped to [a]-[z], every other byte is kept.  On text with other bytes
    Go consults the Unicode case tables, which are outside this model: what
    is proved of a function that calls [ToLower] is stated for ASCII
    input. *)
Fixpoint ToLower (s : string) : string :=
  match s with
  | EmptyString => EmptyString
  | String c r => String (lower_char c) (ToLower r)
  end.

End gostrings.

(** ** Paths: package [path/filepath] on Unix *)

Module filepath.

Definition Separator : ascii := "/"%char.

Definition is_sep (c : ascii) : bool := bool_decide (c = Separator).

(** The elements of a path between its separators; an empty path has the
    single element [""]. *)
Fixpoint split (path : string) : list string :=
  match path with
  | EmptyString => [EmptyString]
  | String c r =>
      if is_sep c then EmptyString :: split r
      else match split r with
           | e :: es => String c e :: es
           | [] => [String c EmptyString]
           end
  end.

Fixpoint join_elems (elems : list string) : string :=
  match elems with
  | [] => EmptyString
  | [e] => e
  | e :: es => e +:+ "/" +:+ join_elems es
  end.

Definition rooted (path : string) : bool :=
  match path with
  | String c _ => is_sep c
  | EmptyString => false
  end.

(** The element loop of [Clean].  [out] is the output buffer as a stack of
    elements, last one first.  Empty and [.] elements are dropped; a [..]
    element removes the last element of the output when there is one to
    remove ([out.w > dotdot] in the source), is dropped at the root of a
    rooted path, and is appended otherwise. *)
Fixpoint clean_elems (is_rooted : bool) (out : list string)
    (elems : list string) : list string :=
  match elems with
  | [] => out
  | e :: es =>
      if bool_decide (e = "" ∨ e = ".") then clean_elems is_rooted out es
      else if bool_decide (e = "..") then
        match out with
        | top :: out' =>
            if bool_decide (top = "..")
            then clean_elems is_rooted (e :: out) es
            else clean_elems is_rooted out' es
        | [] =>
            if is_rooted then clean_elems is_rooted [] es
            else clean_elems is_rooted [e] es
        end
      else clean_elems is_rooted (e :: out) es
  end.

Definition render (is_rooted : bool) (out : list string) : string :=
  if is_rooted then "/" +:+ join_elems (reverse out)
  else match out with
       | [] => "."
       | _ => join_elems (reverse out)
       end.

(** [filepath.Clean]: the shortest path name equivalent to [path] by
    purely lexical processing. *)
Definition Clean (path : string) : string :=
  render (rooted path) (clean_elems (rooted path) [] (split path)).

(** [filepath.Join] of two elements: empty elements are ignored and the
    result is cleaned; the join of two empty elements is empty. *)
Definition Join (a b : string) : string :=
  if bool_decide (a = "") then
    if bool_decide (b = "") then "" else Clean b
  else Clean (a +:+ "/" +:+ b).

Fixpoint has_sep (path : string) : bool :=
  match path with
  | EmptyString => false
  | String c r => is_sep c || has_sep r
  end.

(** [path[:i+1]] for [i] the index of the last separator of [path]. *)
Fixpoint upto_last_sep (path : string) : string :=
  match path with
  | EmptyString => EmptyString
  | String c r => if has_sep path then String c (upto_last_sep r) else EmptyString
  end.

(** [path[i+1:]] for [i] the index of the last separator of [path]. *)
Fixpoint after_last_sep (path : string) : string :=
  match path with
  | EmptyString => EmptyString
  | String c r => if has_sep path then after_last_sep r else path
  end.

(** [filepath.Dir]: all but the last element of [path], cleaned. *)
Definition Dir (path : string) : string := Clean (upto_last_sep path).

Fixpoint all_sep (path : string) : bool :=
  match path with
  | EmptyString => true
  | String c r => is_sep c && all_sep r
  end.

(** [path] without its trailing separators. *)
Fixpoint trim_trailing_sep (path : string) : string :=
  match path with
  | EmptyString => EmptyString
  | String c r => if all_sep path then EmptyString else String c (trim_trailing_sep r)
  end.

(** [filepath.Base]: the last element of [path]. *)
Definition Base (path : string) : string :=
  if bool_decide (path = "") then "."
  else
    let p := after_last_sep (trim_trailing_sep path) in
    if bool_decide (p = "") then "/" else p.

Fixpoint has_dot (s : string) : bool :=
  match s with
  | EmptyString => false
  | String c r => bool_decide (c = "."%char) || has_dot r
  end.

(** The suffix of [s] that begins at its last dot, empty without a dot. *)
Fixpoint from_last_dot (s : string) : string :=
  match s with
  | EmptyString => EmptyString
  | String c r =>
      if has_dot r then from_last_dot r
      else if bool_decide (c = "."%char) then s else EmptyString
  end.

(** [filepath.Ext]: the suffix beginning at the final dot in the final
    element of [path]. *)
Definition Ext (path : string) : string := from_last_dot (after_last_sep path).

End filepath.

(** ** The two regular expressions of file.go and the line scanner *)

Definition newline : ascii := "010"%char.
Definition carriage_return : ascii := "013"%char.

Module regexp.

(** The text up to the first newline: [.] does not match a newline. *)
Fixpoint until_newline (s : string) : string :=
  match s with
  | EmptyString => EmptyString
  | String c r => if bool_decide (c = newline) then EmptyString else String c (until_newline r)
  end.

(** [titleRe.FindString s] for [titleRe], one or more [#] followed by a
    group that takes any characters: the leftmost match starts at the
    first [#] and, both parts being greedy, runs to the end of the line.
    No [#]: the empty string. *)
Fixpoint titleRe_FindString (s : string) : string :=
  match s with
  | EmptyString => EmptyString
  | String c r =>
      if bool_decide (c = "#"%char) then String c (until_newline r)
      else titleRe_FindString r
  end.

Definition drop2 (s : string) : string :=
  match s with
  | String _ (String _ r) => r
  | _ => EmptyString
  end.

(** The target group and the closing parenthesis: the longest non-empty
    run without a newline that is followed by a closing parenthesis. *)
Fixpoint image_target (s : string) : option string :=
  match s with
  | EmptyString => None
  | String c r =>
      if bool_decide (c = newline) then None
      else match image_target r with
           | Some t => Some (String c t)
           | None => if gostrings.HasPrefix r ")" then Some (String c EmptyString) else None
           end
  end.

(** The part of the image pattern after the opening bang and bracket: the
    greedy run of any characters gives back characters until a closing
    bracket, an opening parenthesis, a target and a closing parenthesis
    follow. *)
Fixpoint image_rest (s : string) : option string :=
  let here := if gostrings.HasPrefix s "](" then image_target (drop2 s) else None in
  match s with
  | EmptyString => None
  | String c r =>
      if bool_decide (c = newline) then here
      else match image_rest r with
           | Some t => Some t
           | None => here
           end
  end.

(** [imageRe], the inline image syntax (a bang, a bracketed text of any
    characters, a parenthesised non-empty target): the submatch [1] of
    [imageRe.FindStringSubmatch s], [None] when [s] has no match. *)
Fixpoint imageRe_FindStringSubmatch1 (s : string) : option string :=
  let here := if gostrings.HasPrefix s "![" then image_rest (drop2 s) else None in
  match here with
  | Some t => Some t
  | None =>
      match s with
      | EmptyString => None
      | String _ r => imageRe_FindStringSubmatch1 r
      end
  end.

Definition is_digit (c : ascii) : bool :=
  let n := nat_of_ascii c in (48 <=? n) && (n <=? 57).

(** [s] without the longest run of characters satisfying [p] at its end. *)
Fixpoint drop_trailing (p : ascii → bool) (s : string) : string :=
  match s with
  | EmptyString => EmptyString
  | String c r =>
      match drop_trailing p r with
      | EmptyString => if p c then EmptyString else String c EmptyString
      | r' => String c r'
      end
  end.

(** The expression of uniqueName (flags [mU]; a group of any characters,
    then underscores, then digits, then the end of the line): submatch [1]
    of [FindStringSubmatch s].  The flag [U] makes every star lazy and [m]
    lets [$] match before a newline, so the match starts at the beginning,
    ends at the end of the first line, and group 1 is the shortest prefix
    of that line whose remainder is underscores followed by digits: the
    line without its trailing digits and, before them, its trailing
    underscores. *)
Definition uniqueRe_FindStringSubmatch1 (s : string) : string :=
  drop_trailing (λ c, bool_decide (c = "_"%char))
    (drop_trailing is_digit (until_newline s)).

End regexp.

Module bufio.

Definition MaxScanTokenSize : nat := 64 * 1024.

(** The segments of [data] between newlines (the last one may be empty). *)
Fixpoint segments (data : string) : list string :=
  match data with
  | EmptyString => [EmptyString]
  | String c r =>
      if bool_decide (c = newline) then EmptyString :: segments r
      else match segments r with
           | l :: ls => String c l :: ls
           | [] => [String c EmptyString]
           end
  end.

(** [dropCR]: a token loses one trailing carriage return. *)
Fixpoint dropCR (s : string) : string :=
  match s with
  | EmptyString => EmptyString
  | String c EmptyString => if bool_decide (c = carriage_return) then EmptyString else s
  | String c r => String c (dropCR r)
  end.

(** What is left after the final newline is a line only if it is not
    empty. *)
Fixpoint drop_empty_last (ls : list string) : list string :=
  match ls with
  | [] => []
  | [l] => if bool_decide (l = "") then [] else [l]
  | l :: ls' => l :: drop_empty_last ls'
  end.

(** The scan stops (with [ErrTooLong], which NewFile does not look at)
    at a line that does not fit the buffer. *)
Fixpoint fitting (ls : list string) : list string :=
  match ls with
  | [] => []
  | l :: ls' =>
      if String.length l <? MaxScanTokenSize then l :: fitting ls' else []
  end.

(** The tokens [scanner.Text()] takes over the successful calls of
    [scanner.Scan()], for a scanner with the default split function
    [ScanLines] over a reader delivering [data]. *)
Definition ScanLines (data : string) : list string :=
  dropCR <$> fitting (drop_empty_last (segments data)).

End bufio.

(** ** The file system interface [afero.Fs] *)

(** A Go [error] value is represented by its message; [None] is [nil]. *)
Definition error : Type := string.

(** [fmt.Errorf] with a message that ends in [: %w]. *)
Definition wrap (msg : string) (err : error) : error := msg +:+ ": " +:+ err.

Record FileInfo : Type := { IsDir : bool; Size : nat }.

(** The outcome of [fs.Stat]: the file information, an error for which
    [os.IsNotExist] holds, or any other error. *)
Inductive StatResult : Type :=
  | StatOk (fi : FileInfo)
  | StatNotExist
  | StatErr (err : error).

(** The outcome of [fs.Open]: an error, or a handle.  Of a handle the code
    reads the bytes of a file (through a scanner) or the entries of a
    directory ([Readdir(-1)], whose own error nobody looks at: a failed read
    lists nothing), and it closes the handle: [close] is what [Close]
    returns for it. *)
Inductive OpenResult : Type :=
  | OpenErr (err : error)
  | OpenFile (content : string) (close : option error)
  | OpenDir (names : list string) (close : option error).

(** The methods of [afero.Fs] that the program and the helpers of package
    [afero] call, over a state [St] of the file system.  A method that can
    change the file system returns the new state next to its error.
    [Walk] lists the paths that are present; the embedding uses it only to
    bound the collision loop of uniqueName, which the source runs unbounded. *)
Class Fs (St : Type) : Type := {
  Open : St → string → OpenResult;
  Stat : St → string → StatResult;
  Rename : St → string → string → St * option error;
  MkdirAll : St → string → St * option error;
  Remove : St → string → St * option error;
  Walk : St → list string
}.

Definition dquote : string := String (ascii_of_nat 34) EmptyString.

Module afero.
Section helpers.
Context {St : Type} `{Fs St}.

(** [afero.Exists]. *)
Definition Exists (fs : St) (path : string) : bool * option error :=
  match Stat fs path with
  | StatOk _ => (true, None)
  | StatNotExist => (false, None)
  | StatErr err => (false, Some err)
  end.

(** [afero.DirExists]. *)
Definition DirExists (fs : St) (path : string) : bool * option error :=
  match Stat fs path with
  | StatOk fi => (IsDir fi, None)
  | StatNotExist => (false, None)
  | StatErr err => (false, Some err)
  end.

(** [afero.IsEmpty]. *)
Definition IsEmpty (fs : St) (path : string) : bool * option error :=
  if negb (Exists fs path).1
  then (false, Some (dquote +:+ path +:+ dquote +:+ " path does not exist"))
  else
    match Stat fs path with
    | StatOk fi =>
        if IsDir fi then
          match Open fs path with
          | OpenErr err => (false, Some err)
          | OpenDir names _ => (bool_decide (length names = 0), None)
          | OpenFile _ _ => (true, None)
          end
        else (bool_decide (Size fi = 0), None)
    | StatNotExist => (false, Some "file does not exist")
    | StatErr err => (false, Some err)
    end.

End helpers.
End afero.

(** ** Package [internal]: file.go *)

(** The process-wide state the program works on: the file system behind the
    [afero.Fs] handle and the lines written through package [log], oldest
    first. *)
Record World (St : Type) : Type := { wfs : St; wlog : list string }.
Arguments wfs {St} _.
Arguments wlog {St} _.

(** A Markdown file.  (The [fs] field of the Go struct is the handle of the
    file system, which here is the [World] the methods are run in.) *)
Record File : Type := {
  Path : string;
  Title : string;
  Attachments : list string
}.

Definition set_Path (dest : string) (f : File) : File :=
  {| Path := dest; Title := Title f; Attachments := Attachments f |}.

(** One pass of the loop of NewFile over a scanned line. *)
Definition NewFile_line (acc : string * list string) (text : string)
    : string * list string :=
  let '(title, attachments) := acc in
  let title :=
    if bool_decide (title = "")
    then gostrings.TrimLeft (regexp.titleRe_FindString text) " #"
    else title in
  match regexp.imageRe_FindStringSubmatch1 text with
  | Some image1 => (title, attachments ++ [image1])
  | None => (title, attachments)
  end.

Definition NewFile_scan (lines : list string) : string * list string :=
  foldl NewFile_line ("", []) lines.

Section program.
Context {St : Type} `{Fs St}.

Definition logf (line : string) (w : World St) : World St :=
  {| wfs := wfs w; wlog := wlog w ++ [line] |}.

Definition with_fs (fs : St) (w : World St) : World St :=
  {| wfs := fs; wlog := wlog w |}.

(** The deferred function of NewFile: it closes the handle when NewFile
    returns and writes a line to the log when that fails.  The error it
    assigns is a local variable: the result of NewFile is not changed. *)
Definition NewFile_deferred (close : option error) (path : string) (w : World St)
    : World St :=
  match close with
  | Some _ => logf ("[ERROR] Failed to close the file: " +:+ path) w
  | None => w
  end.

(** NewFile creates File structure from the file in the path. *)
Definition NewFile (w : World St) (path : string) : World St * (error + File) :=
  match Open (wfs w) path with
  | OpenErr err => (w, inl (wrap "failed to open a source file" err))
  | OpenFile content close =>
      let '(title, attachments) := NewFile_scan (bufio.ScanLines content) in
      (NewFile_deferred close path w,
       inr {| Path := path; Title := title; Attachments := attachments |})
  | OpenDir _ close =>
      (* reading from a directory fails at once: the scanner yields nothing *)
      let '(title, attachments) := NewFile_scan [] in
      (NewFile_deferred close path w,
       inr {| Path := path; Title := title; Attachments := attachments |})
  end.

(** ensureDir creates a directory tree for a destination file on a
    filesystem if it doesn't exist. *)
Definition ensureDir (fs : St) (dest : string) : St * option error :=
  let dir := filepath.Dir dest in
  match afero.DirExists fs dir with
  | (_, Some err) => (fs, Some err)
  | (exists_, None) =>
      if negb exists_ then
        match MkdirAll fs dir with
        | (fs', Some err) => (fs', Some (wrap "failed to create a directory" err))
        | (fs', None) => (fs', None)
        end
      else (fs, None)
  end.

(** The loop of Move over the attachments. *)
Fixpoint Move_attachments (dir dest : string) (attachments : list string)
    (fs : St) : St * option error :=
  match attachments with
  | [] => (fs, None)
  | attachment :: rest =>
      let destDir := filepath.Dir dest in
      let attachmentDest := filepath.Join destDir attachment in
      match ensureDir fs attachmentDest with
      | (fs1, Some err) => (fs1, Some err)
      | (fs1, None) =>
          match Rename fs1 (filepath.Join dir attachment) attachmentDest with
          | (fs2, Some err) => (fs2, Some (wrap "failed to move the attachment" err))
          | (fs2, None) => Move_attachments dir dest rest fs2
          end
      end
  end.

(** Move file to a new destination.  The result holds the receiver as the
    call leaves it. *)
Definition Move (f : File) (dest : string) (w : World St)
    : World St * File * option error :=
  let w :=
    match afero.Exists (wfs w) dest with
    | (true, None) => logf ("[WARN] file already exists " +:+ filepath.Base dest) w
    | _ => w
    end in
  match ensureDir (wfs w) dest with
  | (fs1, Some err) => (with_fs fs1 w, f, Some err)
  | (fs1, None) =>
      match Rename fs1 (Path f) dest with
      | (fs2, Some err) => (with_fs fs2 w, f, Some (wrap "failed to move the file" err))
      | (fs2, None) =>
          (* defer func() { f.Path = dest }(): runs at every return below *)
          let deferred (r : St * option error) : World St * File * option error :=
            (with_fs r.1 w, set_Path dest f, r.2) in
          let dir := filepath.Dir (Path f) in
          if bool_decide (dir = filepath.Dir dest)
             || bool_decide (length (Attachments f) = 0)
          then deferred (fs2, None)
          else deferred (Move_attachments dir dest (Attachments f) fs2)
      end
  end.

(** The loop of uniqueName; [i] is its counter.  [fuel] bounds the number
    of rounds. *)
Fixpoint uniqueName_loop (fuel : nat) (w : World St) (dest : string) (i : nat)
    : World St * string :=
  match afero.Exists (wfs w) dest with
  | (true, None) =>
      match fuel with
      | O => (w, dest)
      | S fuel' =>
          let w :=
            if bool_decide (i = 1)
            then logf ("[WARN] File with the same name already exists: " +:+ dest) w
            else w in
          let file := filepath.Base (gostrings.ToLower dest) in
          let ext := filepath.Ext file in
          let name1 :=
            regexp.uniqueRe_FindStringSubmatch1 (gostrings.TrimSuffix file ext) in
          let file := name1 +:+ "_" +:+ pretty i +:+ ext in
          let dest := filepath.Join (filepath.Dir dest) file in
          uniqueName_loop fuel' w dest (i + 1)
      end
  | _ => (w, dest)
  end.

(** uniqueName returns a destination path with appended unique suffix if
    the file with the same name already exists on the filesystem. *)
Definition uniqueName (w : World St) (dest : string) : World St * string :=
  uniqueName_loop (length (Walk (wfs w)) + 1) w dest 1.

(** The loop of MoveToDir over the attachments; [path] is [f.Path]. *)
Fixpoint MoveToDir_attachments (path dirName : string)
    (attachments : list string) (w : World St) : World St * option error :=
  match attachments with
  | [] => (w, None)
  | attachment :: rest =>
      let src := filepath.Join (filepath.Dir path) attachment in
      let dest := filepath.Join dirName attachment in
      match afero.Exists (wfs w) src with
      | (false, None) =>
          MoveToDir_attachments path dirName rest
            (logf ("[WARN] attachment is missing: " +:+ src) w)
      | _ =>
          match ensureDir (wfs w) dest with
          | (fs1, Some err) => (with_fs fs1 w, Some err)
          | (fs1, None) =>
              match Rename fs1 (filepath.Join (filepath.Dir path) attachment) dest with
              | (fs2, Some err) =>
                  (with_fs fs2 w, Some (wrap "failed to move an attachment" err))
              | (fs2, None) =>
                  MoveToDir_attachments path dirName rest (with_fs fs2 w)
              end
          end
      end
  end.

(** MoveToDir moves file to a new directory. *)
Definition MoveToDir (f : File) (dirName : string) (w : World St)
    : World St * File * option error :=
  let '(w, dest) :=
    uniqueName w (filepath.Join dirName (filepath.Base (Path f))) in
  match Rename (wfs w) (Path f) dest with
  | (fs1, Some err) => (with_fs fs1 w, f, Some (wrap "failed to move a file" err))
  | (fs1, None) =>
      if bool_decide (length (Attachments f) = 0) then (with_fs fs1 w, f, None)
      else
        let '(w, err) :=
          MoveToDir_attachments (Path f) dirName (Attachments f) (with_fs fs1 w) in
        (w, f, err)
  end.

End program.

(** ** Package [main]: main.go *)

Definition errNoFilesFound : error := "no markdown files found".
Definition errNoFilesToMove : error := "no files to move".
Definition errMoveMultiple : error :=
  "specify an existing directory as a destination for multiple markdown files".
Definition errWrongTemplate : error := "incorrect template in the destination path".

(** replaceTemplates replaces supported templates. *)
Definition replaceTemplates (tpl title : string) : string :=
  let escaped :=
    gostrings.ReplaceAll title (String filepath.Separator EmptyString) "_" in
  gostrings.Replace tpl "%title%" escaped (Some 1).

(** isTemplate checks if the string is a template. *)
Definition isTemplate (path : string) : bool * option error :=
  if negb (gostrings.Contains path "%") then (false, None)
  else if negb (gostrings.Contains path "%title%") then (false, Some errWrongTemplate)
  else (true, None).

(** [sort.Sort(sort.Reverse(sort.StringSlice(keys)))]: descending order of
    the strings compared byte by byte. *)
Definition sort_reverse (keys : list string) : list string :=
  merge_sort (flip String.le) keys.

Section main.
Context {St : Type} `{Fs St}.

(** isDir checks if a given file path is a directory. *)
Definition isDir (fs : St) (path : string) : bool :=
  match Stat fs path with
  | StatOk info => IsDir info
  | _ => false
  end.

(** parseFiles converts every filepath to an internal representation
    suitable for further operations. *)
Fixpoint parseFiles (files : list string) (w : World St) : World St * list File :=
  match files with
  | [] => (w, [])
  | file :: rest =>
      match NewFile w file with
      | (w1, inl err) =>
          parseFiles rest (logf ("Skipping " +:+ file +:+ ": " +:+ err) w1)
      | (w1, inr md) =>
          let '(w', ff) := parseFiles rest w1 in (w', md :: ff)
      end
  end.

(** A [for _, file := range files] loop that calls a method on each file
    and returns at the first error.  The slice holds pointers: the files
    visited are handed back as the method left them. *)
Fixpoint for_each_file (method : File → World St → World St * File * option error)
    (files : list File) (w : World St) : World St * list File * option error :=
  match files with
  | [] => (w, [], None)
  | file :: rest =>
      match method file w with
      | (w1, file', Some err) => (w1, file' :: rest, Some err)
      | (w1, file', None) =>
          let '(w2, rest', err) := for_each_file method rest w1 in
          (w2, file' :: rest', err)
      end
  end.

(** moveFiles decides where to move each file based on the destination
    definition. *)
Definition moveFiles (files : list File) (dest : string) (w : World St)
    : World St * list File * option error :=
  if bool_decide (length files = 0) then (w, files, Some errNoFilesToMove)
  else
    match isTemplate dest with
    | (_, Some err) => (w, files, Some err)
    | (tplFound, None) =>
        if tplFound then
          for_each_file
            (λ file, Move file (replaceTemplates dest (Title file))) files w
        else if isDir (wfs w) dest then
          for_each_file (λ file, MoveToDir file dest) files w
        else if bool_decide (1 < length files) then (w, files, Some errMoveMultiple)
        else
          match files with
          | file0 :: rest =>
              match Move file0 dest w with
              | (w1, file0', Some err) =>
                  (w1, file0' :: rest, Some (wrap "failed to move a file" err))
              | (w1, file0', None) => (w1, file0' :: rest, None)
              end
          | [] => (w, files, Some errNoFilesToMove)
          end
    end.

(** The loop of cleanUp over the sorted keys. *)
Fixpoint cleanUp_loop (keys : list string) (fs : St) : St * option error :=
  match keys with
  | [] => (fs, None)
  | dir :: rest =>
      if negb (afero.DirExists fs dir).1 then cleanUp_loop rest fs
      else
        match afero.IsEmpty fs dir with
        | (true, None) =>
            match Remove fs dir with
            | (fs', Some err) => (fs', Some (wrap "failed to clean up a dir" err))
            | (fs', None) => cleanUp_loop rest fs'
            end
        | (_, Some err) => (fs, Some (wrap "failed to check if dir is empty" err))
        | (false, None) => cleanUp_loop rest fs
        end
  end.

(** cleanUp removes directories that are empty, starting from the
    directories deep in the filesystem tree. *)
Definition cleanUp (fs : St) (keys : list string) : St * option error :=
  cleanUp_loop (sort_reverse keys) fs.

End main.

(** cleanupList prepares a list of existing directories that might be empty
    after move operation.  The keys of the Go map are a set, which the loop
    over it yields in no fixed order: here each key stands once, in the
    order of its first insertion. *)
Definition cleanupList_dirs (file : File) : list string :=
  filepath.Dir (Path file) ::
  ((λ attachment,
      filepath.Join (filepath.Dir (Path file)) (filepath.Dir attachment))
     <$> Attachments file).

Definition cleanupList (files : list File) : list string :=
  remove_dups (files ≫= cleanupList_dirs).

(** ** An in-memory file system

    An instance of the interface for running the program: a finite map from
    cleaned paths to files and directories; the roots [.] and [/] are
    directories that are always there.  Renaming replaces a file by a file
    and moves a directory only when it has no entries. *)

Module MemFs.

Inductive node : Type :=
  | RegularFile (content : string)
  | Directory.

Abbreviation t := (gmap string node).

Definition ENOENT : error := "no such file or directory".

Definition is_root (k : string) : bool := bool_decide (k = "." ∨ k = "/").

Definition find (s : t) (path : string) : option node :=
  let k := filepath.Clean path in
  if is_root k then Some Directory else s !! k.

(** The names of the entries of the directory [k]. *)
Definition entries (s : t) (k : string) : list string :=
  filepath.Base <$>
    filter (λ p, filepath.Dir p = k ∧ p ≠ k) (map_to_list s).*1.

Definition stat (s : t) (path : string) : StatResult :=
  match find s path with
  | Some (RegularFile content) =>
      StatOk {| IsDir := false; Size := String.length content |}
  | Some Directory => StatOk {| IsDir := true; Size := 0 |}
  | None => StatNotExist
  end.

Definition open (s : t) (path : string) : OpenResult :=
  match find s path with
  | Some (RegularFile content) => OpenFile content None
  | Some Directory => OpenDir (entries s (filepath.Clean path)) None
  | None => OpenErr (wrap ("open " +:+ path) ENOENT)
  end.

Definition rename (s : t) (oldname newname : string) : t * option error :=
  let o := filepath.Clean oldname in
  let n := filepath.Clean newname in
  match (if is_root o then None else s !! o) with
  | None => (s, Some (wrap ("rename " +:+ oldname +:+ " " +:+ newname) ENOENT))
  | Some nd =>
      if bool_decide (o = n) then (s, None)
      else if is_root n then (s, Some "rename: device or resource busy")
      else
        match find s (filepath.Dir n) with
        | Some Directory =>
            match nd, s !! n with
            | RegularFile _, Some Directory => (s, Some "rename: file exists")
            | Directory, Some (RegularFile _) => (s, Some "rename: not a directory")
            | Directory, _ =>
                if bool_decide (entries s o = [] ∧ entries s n = [])
                then (<[n := nd]> (delete o s), None)
                else (s, Some "rename: directory not empty")
            | RegularFile _, _ => (<[n := nd]> (delete o s), None)
            end
        | Some (RegularFile _) => (s, Some "rename: not a directory")
        | None => (s, Some (wrap ("rename " +:+ oldname +:+ " " +:+ newname) ENOENT))
        end
  end.

(** [os.MkdirAll] on a cleaned path: nothing to do for a directory, an
    error for a file, otherwise the parent first and then the directory. *)
Fixpoint mkdir_all (fuel : nat) (s : t) (k : string) : t * option error :=
  match (if is_root k then Some Directory else s !! k) with
  | Some Directory => (s, None)
  | Some (RegularFile _) => (s, Some (wrap ("mkdir " +:+ k) "not a directory"))
  | None =>
      match fuel with
      | O => (s, Some (wrap ("mkdir " +:+ k) "file name too long"))
      | S fuel' =>
          match mkdir_all fuel' s (filepath.Dir k) with
          | (s', Some err) => (s', Some err)
          | (s', None) => (<[k := Directory]> s', None)
          end
      end
  end.

Definition mkdirAll (s : t) (path : string) : t * option error :=
  let k := filepath.Clean path in mkdir_all (String.length k) s k.

Definition remove (s : t) (name : string) : t * option error :=
  let k := filepath.Clean name in
  if is_root k then (s, Some (wrap ("remove " +:+ name) "device or resource busy"))
  else
    match s !! k with
    | None => (s, Some (wrap ("remove " +:+ name) ENOENT))
    | Some (RegularFile _) => (delete k s, None)
    | Some Directory =>
        if bool_decide (entries s k = []) then (delete k s, None)
        else (s, Some (wrap ("remove " +:+ name) "directory not empty"))
    end.

Definition walk (s : t) : list string := "." :: "/" :: (map_to_list s).*1.

#[global] Instance fs : Fs t := {|
  Open := open;
  Stat := stat;
  Rename := rename;
  MkdirAll := mkdirAll;
  Remove := remove;
  Walk := walk
|}.

(** A file system with the given regular files; their directories are
    created as [afero.WriteFile] does. *)
Definition with_files (files : list (string * string)) (s : t) : t :=
  foldl (λ s pc, <[filepath.Clean pc.1 := RegularFile pc.2]>
                   (mkdirAll s (filepath.Dir pc.1)).1) s files.

End MemFs.

(** The in-memory file system behind a layer that refuses chosen paths with
    a permission error: [Stat] on the paths of [deny_stat], [Open] on those
    of [deny_open], [Remove] on those of [deny_remove]; the handles of the
    paths of [deny_close] fail to close. *)
Module DenyFs.

Record t : Type := {
  base : gmap string MemFs.node;
  deny_stat : list string;
  deny_open : list string;
  deny_remove : list string;
  deny_close : list string
}.

Definition EACCES : error := "permission denied".
Definition EIO : error := "input/output error".

Definition fail_close (path : string) (r : OpenResult) : OpenResult :=
  match r with
  | OpenErr err => OpenErr err
  | OpenFile content _ => OpenFile content (Some (wrap ("close " +:+ path) EIO))
  | OpenDir names _ => OpenDir names (Some (wrap ("close " +:+ path) EIO))
  end.

Definition denied (path : string) (l : list string) : bool :=
  bool_decide (filepath.Clean path ∈ l).

Definition lift (s : t) (r : gmap string MemFs.node * option error) : t * option error :=
  ({| base := r.1; deny_stat := deny_stat s; deny_open := deny_open s;
      deny_remove := deny_remove s; deny_close := deny_close s |}, r.2).

#[global] Instance fs : Fs t := {|
  Open s path :=
    if denied path (deny_open s) then OpenErr (wrap ("open " +:+ path) EACCES)
    else if denied path (deny_close s) then fail_close path (MemFs.open (base s) path)
    else MemFs.open (base s) path;
  Stat s path :=
    if denied path (deny_stat s) then StatErr (wrap ("stat " +:+ path) EACCES)
    else MemFs.stat (base s) path;
  Rename s oldname newname := lift s (MemFs.rename (base s) oldname newname);
  MkdirAll s path := lift s (MemFs.mkdirAll (base s) path);
  Remove s name :=
    if denied name (deny_remove s) then (s, Some (wrap ("remove " +:+ name) EACCES))
    else lift s (MemFs.remove (base s) name);
  Walk s := MemFs.walk (base s)
|}.

End DenyFs.

(** ** Definitions used by the statements *)

Definition world0 {St : Type} (fs : St) : World St := {| wfs := fs; wlog := [] |}.

(** The spec's words for the escaping of a title: every path separator
    becomes an underscore. *)
Fixpoint underscore_separators (title : string) : string :=
  match title with
  | EmptyString => EmptyString
  | String c r =>
      String (if bool_decide (c = filepath.Separator) then "_"%char else c)
             (underscore_separators r)
  end.

(** The contents of testdata/sample.md as the tests use it: a first heading
    and one image. *)
Definition sample_md : string :=
  "# Sample file for testing purpose" +:+ String newline "" +:+
  String newline "" +:+
  "![sample](images/sample.png)" +:+ String newline "".

(** sample.md and its image in the working directory, next to an empty
    directory [folder]. *)
Definition sample_fs : gmap string MemFs.node :=
  MemFs.with_files
    [("sample.md", sample_md); ("images/sample.png", "PNG")]
    (MemFs.mkdirAll ∅ "folder").1.

Definition sample_file : File :=
  {| Path := "sample.md"; Title := "Sample file for testing purpose";
     Attachments := ["images/sample.png"] |}.

(** The heading text NewFile takes from a scanned line: the match of
    [titleRe] without the [#] and space characters at its front. *)
Definition heading_text (text : string) : string :=
  gostrings.TrimLeft (regexp.titleRe_FindString text) " #".

(** A file whose only line is a heading that ends in a space. *)
Definition trailing_space_fs : gmap string MemFs.node :=
  MemFs.with_files [("a.md", "# Title ")] ∅.

(** A file whose first heading line has no text, followed by a heading. *)
Definition bare_heading_fs : gmap string MemFs.node :=
  MemFs.with_files [("b.md", "#" +:+ String newline "" +:+ "## Later")] ∅.

(** sample.md without its image, next to an empty directory [new_folder]. *)
Definition lonely_fs : gmap string MemFs.node :=
  MemFs.with_files [("sample.md", sample_md)] (MemFs.mkdirAll ∅ "new_folder").1.

(** The spec's words for the sweep over the directories in the order
    given: a directory that the existence check does not report is skipped,
    one that is not empty is left alone, an empty one is removed, and a
    failure of the emptiness check or of the removal ends the sweep with an
    error, in the state reached so far. *)
Inductive sweep {St : Type} `{Fs St} : St → list string → St → option error → Prop :=
  | sweep_done fs :
      sweep fs [] fs None
  | sweep_absent fs dir rest fs' r :
      (afero.DirExists fs dir).1 = false →
      sweep fs rest fs' r →
      sweep fs (dir :: rest) fs' r
  | sweep_not_empty fs dir rest fs' r :
      (afero.DirExists fs dir).1 = true →
      afero.IsEmpty fs dir = (false, None) →
      sweep fs rest fs' r →
      sweep fs (dir :: rest) fs' r
  | sweep_removed fs dir rest fs1 fs' r :
      (afero.DirExists fs dir).1 = true →
      afero.IsEmpty fs dir = (true, None) →
      Remove fs dir = (fs1, None) →
      sweep fs1 rest fs' r →
      sweep fs (dir :: rest) fs' r
  | sweep_remove_failed fs dir rest fs1 err :
      (afero.DirExists fs dir).1 = true →
      afero.IsEmpty fs dir = (true, None) →
      Remove fs dir = (fs1, Some err) →
      sweep fs (dir :: rest) fs1 (Some (wrap "failed to clean up a dir" err))
  | sweep_check_failed fs dir rest empty err :
      (afero.DirExists fs dir).1 = true →
      afero.IsEmpty fs dir = (empty, Some err) →
      sweep fs (dir :: rest) fs (Some (wrap "failed to check if dir is empty" err)).

(** An empty directory a/b that cannot be examined: [Stat] on it is refused. *)
Definition locked_fs : DenyFs.t :=
  {| DenyFs.base := (MemFs.mkdirAll ∅ "a/b").1;
     DenyFs.deny_stat := ["a/b"];
     DenyFs.deny_open := [];
     DenyFs.deny_remove := [];
     DenyFs.deny_close := [] |}.

(** Empty directories a/b and c, of which a/b cannot be opened and c cannot
    be removed. *)
Definition guarded_fs : DenyFs.t :=
  {| DenyFs.base := (MemFs.mkdirAll (MemFs.mkdirAll ∅ "a/b").1 "c").1;
     DenyFs.deny_stat := [];
     DenyFs.deny_open := ["a/b"];
     DenyFs.deny_remove := ["c"];
     DenyFs.deny_close := [] |}.

(** sample.md and its image, where the handle of sample.md cannot be
    closed. *)
Definition stuck_handle_fs : DenyFs.t :=
  {| DenyFs.base := sample_fs;
     DenyFs.deny_stat := [];
     DenyFs.deny_open := [];
     DenyFs.deny_remove := [];
     DenyFs.deny_close := ["sample.md"] |}.

(** A file name: an element that is not empty, is neither [.] nor [..] and
    has no separator. *)
Definition plain (e : string) : Prop :=
  e ≠ "" ∧ e ≠ "." ∧ e ≠ ".." ∧ filepath.has_sep e = false.

(** The output stack of the element loop: file names on top of [..]
    elements, none of which a rooted path has. *)
Definition normal (r : bool) (out : list string) : Prop :=
  ∃ tops n, out = tops ++ replicate n ".." ∧ Forall plain tops ∧ (r = true → n = 0).

(** Every character of [s] satisfies [p]. *)
Fixpoint all_chars (p : ascii → bool) (s : string) : bool :=
  match s with
  | EmptyString => true
  | String c r => p c && all_chars p r
  end.

Definition not_newline (c : ascii) : bool := negb (bool_decide (c = newline)).
Definition lower_fixed (c : ascii) : bool := bool_decide (gostrings.lower_char c = c).

(** The parts of the names uniqueName builds at a collision from the base
    name of the destination: the extension of the name in lower case, the
    stem before it, and what the expression of uniqueName leaves of the
    stem. *)
Definition suffix_ext (base : string) : string :=
  filepath.Ext (gostrings.ToLower base).

Definition suffix_stem (base : string) : string :=
  gostrings.TrimSuffix (gostrings.ToLower base) (suffix_ext base).

Definition suffix_name1 (base : string) : string :=
  regexp.uniqueRe_FindStringSubmatch1 (suffix_stem base).

(** The name for the counter [i]. *)
Definition suffixed_name (base : string) (i : nat) : string :=
  suffix_name1 base +:+ "_" +:+ pretty i +:+ suffix_ext base.

(** The spec's words for the stem of a suffixed name: a trailing group of
    an underscore and digits is taken off the stem. *)
Fixpoint strip_counter (stem : string) : string :=
  match stem with
  | EmptyString => EmptyString
  | String c r =>
      if bool_decide (c = "_"%char) && negb (bool_decide (r = ""))
         && all_chars regexp.is_digit r
      then EmptyString
      else String c (strip_counter r)
  end.

(** The spec's words for the name with the suffix for [i]: the stem of the
    lower-case name without its trailing group, the suffix, the
    extension. *)
Definition spec_suffixed_name (base : string) (i : nat) : string :=
  strip_counter (suffix_stem base) +:+ "_" +:+ pretty i +:+ suffix_ext base.

(** The last character of [s] satisfies [p]. *)
Fixpoint ends_with (p : ascii → bool) (s : string) : bool :=
  match s with
  | EmptyString => false
  | String c r =>
      match r with
      | EmptyString => p c
      | String _ _ => ends_with p r
      end
  end.

(** A stem of one line that ends in neither a digit nor an underscore, or
    in one group of an underscore and digits that follows a character other
    than an underscore. *)
Definition tidy_stem (stem : string) : bool :=
  all_chars not_newline stem &&
  if bool_decide (strip_counter stem = stem)
  then negb (ends_with (λ c, regexp.is_digit c || bool_decide (c = "_"%char)) stem)
  else negb (ends_with (λ c, bool_decide (c = "_"%char)) (strip_counter stem)).

(** [Walk] lists every path that is there. *)
Definition walk_complete {St : Type} `{Fs St} (fs : St) : Prop :=
  ∀ path, afero.Exists fs path = (true, None) → filepath.Clean path ∈ Walk fs.



(** Files whose names have an upper-case letter or end in a digit, each
    with a file of the same name in the directory [folder]. *)
Definition collision_fs : gmap string MemFs.node :=
  MemFs.with_files
    [("src/Index.md", "# new"); ("folder/Index.md", "# old");
     ("src/notes2.md", "# new"); ("folder/notes2.md", "# old")] ∅.



(** A cleaned path and the directories above it, up to the root. *)
Fixpoint lineage_go (fuel : nat) (k : string) : list string :=
  k :: match fuel with
       | O => []
       | S fuel' => lineage_go fuel' (filepath.Dir k)
       end.

Definition lineage (path : string) : list string :=
  let k := filepath.Clean path in lineage_go (String.length k) k.

(** [a] names [path] itself or a directory above it. *)
Definition above (a path : string) : bool :=
  bool_decide (filepath.Clean a ∈ lineage path).

(** What the properties of the attachment moves assume of the file system:
    a successful rename makes the new name exist and, when the names
    differ, the old one not; it takes away nothing outside the old name and
    what lies below it, and adds nothing outside the new name and what lies
    below it; MkdirAll takes nothing away and adds nothing but the
    directory and the directories above it. *)
Record fs_laws {St : Type} `{Fs St} : Prop := {
  rename_target (fs fs' : St) (a b : string) :
    Rename fs a b = (fs', None) → afero.Exists fs' b = (true, None);
  rename_source (fs fs' : St) (a b : string) :
    Rename fs a b = (fs', None) → filepath.Clean a ≠ filepath.Clean b →
    afero.Exists fs' a = (false, None);
  rename_keeps (fs fs' : St) (a b p : string) :
    Rename fs a b = (fs', None) → above a p = false →
    afero.Exists fs p = (true, None) → afero.Exists fs' p = (true, None);
  rename_adds (fs fs' : St) (a b p : string) :
    Rename fs a b = (fs', None) → above b p = false →
    afero.Exists fs p = (false, None) → afero.Exists fs' p = (false, None);
  mkdir_keeps (fs fs' : St) (d p : string) (r : option error) :
    MkdirAll fs d = (fs', r) →
    afero.Exists fs p = (true, None) → afero.Exists fs' p = (true, None);
  mkdir_adds (fs fs' : St) (d p : string) (r : option error) :
    MkdirAll fs d = (fs', r) → above p d = false →
    afero.Exists fs p = (false, None) → afero.Exists fs' p = (false, None)
}.
Arguments fs_laws St {_}.

(** No attachment of the list is moved from, onto or into a place that an
    earlier attachment has been moved to or from. *)
Fixpoint independent (dir destDir : string) (attachments : list string) : Prop :=
  match attachments with
  | [] => True
  | a :: rest =>
      Forall (λ b,
        above (filepath.Join dir b) (filepath.Join destDir a) = false ∧
        above (filepath.Join destDir b) (filepath.Join dir a) = false ∧
        above (filepath.Join dir a) (filepath.Dir (filepath.Join destDir b)) = false)
        rest ∧
      independent dir destDir rest
  end.

(** A file in directory [a] whose image lies in the parent directory. *)
Definition parent_image_fs : gmap string MemFs.node :=
  MemFs.with_files [("a/x.md", "![i](../img.png)"); ("img.png", "PNG")] ∅.

Definition parent_image_file : File :=
  {| Path := "a/x.md"; Title := ""; Attachments := ["../img.png"] |}.

(** A file whose second attachment names the place the first one is moved
    to. *)
Definition crossing_fs : gmap string MemFs.node :=
  MemFs.with_files [("a/x.md", "![p](p.png) ![q](../b/c/p.png)"); ("a/p.png", "PNG")] ∅.

Definition crossing_file : File :=
  {| Path := "a/x.md"; Title := ""; Attachments := ["p.png"; "../b/c/p.png"] |}.

(** ** The entry point of package [main] *)

Section entry.
Context {St : Type} `{Fs St}.

(** [afero.Glob]: the names of the files matching a pattern, [[]] for Go's
    nil slice.  Pattern matching is the library's; the program is modelled
    for any such function. *)
Variable Glob : St → string → list string * option error.

(** findFiles accepts a filename, directories and glob patterns as an input
    and returns a slice files matching the search criteria. *)
Definition findFiles (fs : St) (path : string) : list string * option error :=
  let path := if isDir fs path then path +:+ "/*.md" else path in
  if gostrings.Contains path "*" then
    let '(files, err) := Glob fs path in
    if bool_decide (files = []) then ([], Some errNoFilesFound) else (files, err)
  else ([path], None).

(** mv moves files from source to destination. *)
Definition mv (src dest : string) (w : World St) : World St * option error :=
  match findFiles (wfs w) src with
  | (_, Some err) => (w, Some err)
  | (files, None) =>
      let '(w1, mdFiles) := parseFiles files w in
      (* Collect paths to clean up before we move files *)
      let dirs := cleanupList mdFiles in
      match moveFiles mdFiles dest w1 with
      | (w2, _, Some err) => (w2, Some err)
      | (w2, _, None) =>
          let '(fs', err) := cleanUp (wfs w2) dirs in
          (with_fs fs' w2, err)
      end
  end.

End entry.

(** The number of path separators of a string. *)
Fixpoint count_sep (s : string) : nat :=
  match s with
  | EmptyString => 0
  | String c r => (if filepath.is_sep c then 1 else 0) + count_sep r
  end.

(** A glob for the in-memory file system that knows the patterns of the
    form [<dir>/*.md] over the files of one directory level; enough to run
    the entry point on a directory. *)
Definition MemFs_glob (s : gmap string MemFs.node) (pattern : string)
    : list string * option error :=
  (merge_sort String.le
     (filter (λ p, filepath.Join (filepath.Dir p) "*.md" = filepath.Clean pattern ∧
                   filepath.Ext p = ".md")
        (map_to_list s).*1), None).

(** The lines that the parsing of [path] leaves in the log: the line of
    parseFiles for a path that NewFile cannot open, the line of NewFile for
    a handle that fails to close, nothing for any other path. *)
Definition parse_log {St : Type} `{Fs St} (fs : St) (path : string) : list string :=
  match Open fs path with
  | OpenErr err =>
      ["Skipping " +:+ path +:+ ": " +:+ wrap "failed to open a source file" err]
  | OpenFile _ (Some _) | OpenDir _ (Some _) =>
      ["[ERROR] Failed to close the file: " +:+ path]
  | _ => []
  end.

(** [Open] succeeds on [path]. *)
Definition can_open {St : Type} `{Fs St} (fs : St) (path : string) : bool :=
  match Open fs path with
  | OpenErr _ => false
  | _ => true
  end.

(** A file record for a path at which there is nothing. *)
Definition ghost_file : File :=
  {| Path := "ghost.md"; Title := ""; Attachments := [] |}.

(** * Properties *)

Lemma triple_eta {A B C : Type} (p : A * B * C) : p = (p.1.1, p.1.2, p.2).
Proof. by destruct p as [[??]?]. Qed.

Lemma pair_snd_eq {A B : Type} (p : A * B) (b : B) : p.2 = b → p = (p.1, b).
Proof. destruct p. by intros <-. Qed.

(** ** Facts about strings *)

Lemma sapp_cons (c : ascii) (s t : string) : String c s +:+ t = String c (s +:+ t).
Proof. reflexivity. Qed.

Lemma sapp_nil_l (s : string) : "" +:+ s = s.
Proof. reflexivity. Qed.

Lemma sapp_nil_r (s : string) : s +:+ "" = s.
Proof. induction s as [|c s IH]; [done|]. by rewrite sapp_cons, IH. Qed.

Lemma sapp_assoc (s t u : string) : (s +:+ t) +:+ u = s +:+ t +:+ u.
Proof. induction s as [|c s IH]; [done|]. by rewrite !sapp_cons, IH. Qed.

Lemma sapp_length (s t : string) :
  String.length (s +:+ t) = String.length s + String.length t.
Proof. induction s as [|c s IH]; [done|]. rewrite sapp_cons. cbn. by rewrite IH. Qed.

Lemma HasPrefix_nil (s : string) : gostrings.HasPrefix s "" = true.
Proof. by destruct s. Qed.

Lemma HasPrefix_cons (c d : ascii) (s p : string) :
  gostrings.HasPrefix (String c s) (String d p) =
  bool_decide (c = d) && gostrings.HasPrefix s p.
Proof.
  unfold gostrings.HasPrefix. cbn. destruct (ascii_dec d c) as [->|Hne].
  - by rewrite bool_decide_eq_true_2.
  - by rewrite bool_decide_eq_false_2.
Qed.

Lemma HasPrefix_true (s p : string) :
  gostrings.HasPrefix s p = true ↔ ∃ r, s = p +:+ r.
Proof.
  revert s. induction p as [|d p IH]; intros s.
  - rewrite HasPrefix_nil. naive_solver.
  - destruct s as [|c s]; [by split; [|intros [? ?]]|].
    rewrite HasPrefix_cons, andb_true_iff, bool_decide_eq_true, IH.
    split.
    + intros [-> [r ->]]. by exists r.
    + intros [r Hr]. rewrite sapp_cons in Hr. simplify_eq. eauto.
Qed.

Lemma HasPrefix_app (p r : string) : gostrings.HasPrefix (p +:+ r) p = true.
Proof. apply HasPrefix_true. eauto. Qed.

Lemma Contains_cons (c : ascii) (s sub : string) :
  gostrings.Contains (String c s) sub =
  gostrings.HasPrefix (String c s) sub || gostrings.Contains s sub.
Proof. reflexivity. Qed.

Lemma Contains_true (s sub : string) :
  gostrings.Contains s sub = true ↔ ∃ pre post, s = pre +:+ sub +:+ post.
Proof.
  induction s as [|c s IH].
  - cbn [gostrings.Contains]. rewrite orb_false_r, HasPrefix_true. split.
    + intros [r Hr]. by exists "", r.
    + intros (pre & post & Hs). destruct pre; [by exists post|done].
  - rewrite Contains_cons, orb_true_iff, HasPrefix_true, IH. split.
    + intros [[r Hr]|(pre & post & ->)]; [by exists "", r|].
      by exists (String c pre), post.
    + intros (pre & post & Hs). destruct pre as [|c' pre].
      * left. by exists post.
      * right. rewrite sapp_cons in Hs. simplify_eq. eauto.
Qed.

Lemma Contains_app_r (s t sub : string) :
  gostrings.Contains t sub = true → gostrings.Contains (s +:+ t) sub = true.
Proof.
  rewrite !Contains_true. intros (pre & post & ->).
  exists (s +:+ pre), post. by rewrite sapp_assoc.
Qed.

(** Once the limit of replacements is used up, Replace only finishes
    dropping the occurrence it is in. *)
Lemma Replace_go_done (old new old' post : string) :
  gostrings.Replace_go old new (Some 0) (String.length old') (old' +:+ post) = post.
Proof.
  induction old' as [|c old' IH]; cbn.
  - by destruct post.
  - done.
Qed.

(** Replace with limit 1 rewrites the first occurrence of [old]. *)
Lemma Replace_first (s old : string) :
  old ≠ "" →
  gostrings.Contains s old = true →
  ∃ pre post,
    s = pre +:+ old +:+ post ∧
    (∀ pre' post', s = pre' +:+ old +:+ post' →
       String.length pre ≤ String.length pre') ∧
    ∀ new, gostrings.Replace s old new (Some 1) = pre +:+ new +:+ post.
Proof.
  intros Hold. unfold gostrings.Replace.
  induction s as [|c s IH]; intros Hc.
  { cbn [gostrings.Contains] in Hc. rewrite orb_false_r in Hc.
    apply HasPrefix_true in Hc as [r Hr].
    by destruct old. }
  rewrite Contains_cons in Hc.
  destruct (gostrings.HasPrefix (String c s) old) eqn:Hp.
  - apply HasPrefix_true in Hp as [post Hpost].
    exists "", post. split_and!; [done|cbn; lia|].
    intros new. cbn [gostrings.Replace_go].
    rewrite Hpost at 1. rewrite HasPrefix_app.
    destruct old as [|d old']; [done|]. rewrite sapp_cons in Hpost.
    injection Hpost as -> ->.
    replace (String.length (String d old') - 1) with (String.length old')
      by (cbn; lia).
    cbn [fmap option_fmap option_map Nat.pred]. by rewrite Replace_go_done.
  - cbn in Hc. destruct (IH Hc) as (pre & post & -> & Hmin & Hrep).
    exists (String c pre), post. split_and!; [done| |].
    + intros [|c' pre'] post' Heq.
      * rewrite sapp_nil_l in Heq.
        assert (gostrings.HasPrefix (String c (pre +:+ old +:+ post)) old = true)
          as Hp'; [|congruence].
        rewrite Heq. apply HasPrefix_app.
      * rewrite sapp_cons in Heq. simplify_eq. cbn.
        apply le_n_S. eapply Hmin. done.
    + intros new. cbn [gostrings.Replace_go]. rewrite Hp.
      by rewrite Hrep, sapp_cons.
Qed.

(** Replacing every separator by an underscore, as ReplaceAll does it, is
    the character-wise substitution. *)
Lemma ReplaceAll_separator (title : string) :
  gostrings.ReplaceAll title (String filepath.Separator EmptyString) "_" =
  underscore_separators title.
Proof.
  unfold gostrings.ReplaceAll, gostrings.Replace.
  induction title as [|c title IH]; [done|].
  cbn [gostrings.Replace_go underscore_separators].
  rewrite HasPrefix_cons, HasPrefix_nil, andb_true_r.
  case_bool_decide; cbn [fmap option_fmap option_map String.length Nat.sub].
  - by rewrite sapp_cons, sapp_nil_l, IH.
  - by rewrite IH.
Qed.

(** ** Facts about paths *)

Lemma has_sep_app (a b : string) :
  filepath.has_sep (a +:+ b) = filepath.has_sep a || filepath.has_sep b.
Proof.
  induction a as [|c a IH]; [done|].
  rewrite sapp_cons. cbn [filepath.has_sep]. by rewrite IH, orb_assoc.
Qed.

Lemma split_nonempty (s : string) : filepath.split s ≠ [].
Proof.
  destruct s as [|c s]; [done|]. cbn [filepath.split].
  destruct (filepath.is_sep c); [done|]. by destruct (filepath.split s).
Qed.

Lemma split_sepfree (s : string) :
  Forall (λ e, filepath.has_sep e = false) (filepath.split s).
Proof.
  induction s as [|c s IH]; [by repeat constructor|].
  cbn [filepath.split]. destruct (filepath.is_sep c) eqn:Hc.
  - by constructor.
  - destruct (filepath.split s) as [|e es]; [by repeat constructor; cbn; rewrite Hc|].
    inversion_clear IH. constructor; [|done]. cbn. by rewrite Hc.
Qed.

Lemma split_id (e : string) : filepath.has_sep e = false → filepath.split e = [e].
Proof.
  induction e as [|c e IH]; [done|]. cbn [filepath.has_sep filepath.split].
  intros [Hc He]%orb_false_iff. by rewrite Hc, IH.
Qed.

Lemma split_app_sep (a b : string) :
  filepath.split (a +:+ "/" +:+ b) = filepath.split a ++ filepath.split b.
Proof.
  induction a as [|c a IH]; [done|].
  rewrite sapp_cons. cbn [filepath.split]. rewrite IH.
  destruct (filepath.is_sep c); [done|].
  pose proof (split_nonempty a). by destruct (filepath.split a).
Qed.

Lemma join_elems_cons (e : string) (es : list string) :
  es ≠ [] → filepath.join_elems (e :: es) = e +:+ "/" +:+ filepath.join_elems es.
Proof. by destruct es. Qed.

Lemma split_join (l : list string) :
  l ≠ [] → Forall (λ e, filepath.has_sep e = false) l →
  filepath.split (filepath.join_elems l) = l.
Proof.
  induction l as [|e l IH]; [done|]. intros _ Hall.
  apply Forall_cons in Hall as [He Hl].
  destruct (decide (l = [])) as [->|Hne]; [by apply split_id|].
  rewrite join_elems_cons, split_app_sep, split_id, IH by done. done.
Qed.

Lemma join_elems_snoc (l : list string) (f : string) :
  l ≠ [] → filepath.join_elems (l ++ [f]) = filepath.join_elems l +:+ "/" +:+ f.
Proof.
  induction l as [|e l IH]; [done|]. intros _.
  destruct (decide (l = [])) as [->|Hne]; [done|].
  rewrite <-app_comm_cons, (join_elems_cons e (l ++ [f])) by (by destruct l).
  rewrite IH, (join_elems_cons e l) by done.
  by rewrite !sapp_assoc.
Qed.

Lemma clean_elems_app r out l1 l2 :
  filepath.clean_elems r out (l1 ++ l2) =
  filepath.clean_elems r (filepath.clean_elems r out l1) l2.
Proof.
  revert out. induction l1 as [|e l1 IH]; intros out; [done|].
  cbn [app filepath.clean_elems].
  repeat (case_bool_decide || case_match); by rewrite ?IH.
Qed.

Lemma clean_elems_plain r out (e : string) :
  plain e → filepath.clean_elems r out [e] = e :: out.
Proof.
  intros (H1 & H2 & H3 & _). cbn [filepath.clean_elems].
  rewrite bool_decide_eq_false_2 by (by intros [?|?]).
  by rewrite bool_decide_eq_false_2.
Qed.

Lemma clean_elems_plains r out (l : list string) :
  Forall plain l → filepath.clean_elems r out l = reverse l ++ out.
Proof.
  revert out. induction l as [|e l IH]; intros out Hall; [done|].
  inversion_clear Hall.
  change (e :: l) with ([e] ++ l).
  rewrite clean_elems_app, clean_elems_plain, IH by done.
  by rewrite reverse_app, reverse_singleton, <-app_assoc.
Qed.

Lemma clean_elems_dotdots n k :
  filepath.clean_elems false (replicate k "..") (replicate n "..") =
  replicate (n + k) "..".
Proof.
  revert k. induction n as [|n IH]; intros k; [done|].
  cbn [replicate filepath.clean_elems].
  rewrite bool_decide_eq_false_2 by (by intros [?|?]).
  rewrite bool_decide_eq_true_2 by done.
  destruct k as [|k]; cbn [replicate].
  - etrans; [apply (IH 1)|]. by rewrite Nat.add_1_r, Nat.add_0_r.
  - rewrite bool_decide_eq_true_2 by done.
    etrans; [apply (IH (S (S k)))|]. by rewrite <-!Nat.add_succ_comm.
Qed.

Lemma Forall_plain_sepfree (l : list string) :
  Forall plain l → Forall (λ e, filepath.has_sep e = false) l.
Proof. intros Hl. eapply Forall_impl; [done|]. by intros e (_ & _ & _ & ?). Qed.

Lemma normal_nil r : normal r [].
Proof. exists [], 0. by split_and!. Qed.

Lemma normal_push r out e : plain e → normal r out → normal r (e :: out).
Proof.
  intros He (tops & n & -> & Ht & Hn). exists (e :: tops), n.
  split_and!; [done| by constructor | done].
Qed.

(** The element loop keeps its output stack normal. *)
Lemma clean_elems_normal r out (elems : list string) :
  Forall (λ e, filepath.has_sep e = false) elems →
  normal r out → normal r (filepath.clean_elems r out elems).
Proof.
  revert out. induction elems as [|e elems IH]; intros out Hall Hout; [done|].
  apply Forall_cons in Hall as [He Hall]. cbn [filepath.clean_elems].
  case_bool_decide as H1; [by apply IH|].
  case_bool_decide as H2.
  - destruct Hout as (tops & n & -> & Ht & Hn).
    destruct tops as [|top tops]; cbn [app].
    + destruct n as [|n]; cbn [replicate].
      * destruct r; apply IH; try done; [apply normal_nil|].
        subst e. exists [], 1. by split_and!.
      * rewrite bool_decide_eq_true_2 by done. apply IH; [done|]. subst e.
        exists [], (S (S n)). split_and!; [done..|]. intros Hr. by specialize (Hn Hr).
    + apply Forall_cons in Ht as [Htop Ht].
      rewrite bool_decide_eq_false_2 by (by destruct Htop as (_ & _ & ? & _)).
      apply IH; [done|]. exists tops, n. by split_and!.
  - apply IH; [done|]. apply normal_push; [|done].
    split_and!; [naive_solver..|done].
Qed.

(** On the elements of a normal stack the loop changes nothing. *)
Lemma clean_elems_reverse r out :
  normal r out → filepath.clean_elems r [] (reverse out) = out.
Proof.
  intros (tops & n & -> & Ht & Hn).
  rewrite reverse_app, reverse_replicate, clean_elems_app.
  assert (filepath.clean_elems r [] (replicate n "..") = replicate n "..") as ->.
  { destruct r.
    - by rewrite (Hn eq_refl).
    - etrans; [apply (clean_elems_dotdots n 0)|]. by rewrite Nat.add_0_r. }
  rewrite clean_elems_plains by (by apply Forall_reverse).
  by rewrite reverse_involutive.
Qed.

Lemma normal_elems r out :
  normal r out → Forall (λ e, e ≠ "" ∧ filepath.has_sep e = false) out.
Proof.
  intros (tops & n & -> & Ht & _). apply Forall_app. split.
  - eapply Forall_impl; [done|]. by intros e (? & _ & _ & ?).
  - by apply Forall_replicate.
Qed.

Lemma rooted_app (a b : string) : a ≠ "" → filepath.rooted (a +:+ b) = filepath.rooted a.
Proof. by destruct a. Qed.

Lemma rooted_sepfree (e : string) : filepath.has_sep e = false → filepath.rooted e = false.
Proof. destruct e as [|c e]; [done|]. cbn. by intros [? ?]%orb_false_iff. Qed.

Lemma join_elems_head (e : string) (es : list string) :
  ∃ t, filepath.join_elems (e :: es) = e +:+ t.
Proof.
  destruct es as [|e' es]; [exists ""; by rewrite sapp_nil_r|].
  by eexists.
Qed.

Lemma join_reverse_head (out : list string) :
  out ≠ [] → Forall (λ e, e ≠ "" ∧ filepath.has_sep e = false) out →
  ∃ e t, e ≠ "" ∧ filepath.has_sep e = false ∧
         filepath.join_elems (reverse out) = e +:+ t.
Proof.
  intros Hne Hall. apply Forall_reverse in Hall.
  destruct (reverse out) as [|e l] eqn:Hr.
  { apply (f_equal reverse) in Hr. by rewrite reverse_involutive in Hr. }
  apply Forall_cons in Hall as [[He1 He2] _].
  destruct (join_elems_head e l) as [t Ht]. eauto.
Qed.

Lemma render_nonempty r out : normal r out → filepath.render r out ≠ "".
Proof.
  intros Hn%normal_elems. unfold filepath.render. destruct r; [done|].
  destruct out as [|e0 out]; [done|].
  destruct (join_reverse_head (e0 :: out)) as (e & t & He & _ & ->); [done..|].
  by destruct e.
Qed.

Lemma rooted_render r out : normal r out → filepath.rooted (filepath.render r out) = r.
Proof.
  intros Hn%normal_elems. unfold filepath.render. destruct r; [done|].
  destruct out as [|e0 out]; [done|].
  destruct (join_reverse_head (e0 :: out)) as (e & t & He & Hs & ->); [done..|].
  rewrite rooted_app by done. by apply rooted_sepfree.
Qed.

Lemma split_join_reverse (out : list string) :
  out ≠ [] → Forall (λ e, e ≠ "" ∧ filepath.has_sep e = false) out →
  filepath.split (filepath.join_elems (reverse out)) = reverse out.
Proof.
  intros Hne Hall. apply split_join.
  - intros Hr. apply (f_equal reverse) in Hr. by rewrite reverse_involutive in Hr.
  - apply Forall_reverse. eapply Forall_impl; [done|]. by intros e [_ ?].
Qed.

(** Cleaning reads a rendered stack back. *)
Lemma clean_elems_render r out :
  normal r out →
  filepath.clean_elems r [] (filepath.split (filepath.render r out)) = out.
Proof.
  intros Hn. pose proof (normal_elems _ _ Hn) as Hall.
  unfold filepath.render. destruct r.
  - rewrite sapp_cons, sapp_nil_l. cbn [filepath.split].
    change (filepath.is_sep "/") with true. cbv iota.
    destruct out as [|e0 out]; [done|].
    rewrite split_join_reverse by done. cbn [filepath.clean_elems].
    rewrite bool_decide_eq_true_2 by (by left).
    by apply clean_elems_reverse.
  - destruct out as [|e0 out]; [done|].
    rewrite split_join_reverse by done. by apply clean_elems_reverse.
Qed.

Lemma Clean_normal (path : string) :
  normal (filepath.rooted path)
    (filepath.clean_elems (filepath.rooted path) [] (filepath.split path)).
Proof. apply clean_elems_normal; [apply split_sepfree | apply normal_nil]. Qed.

Lemma Clean_render r out : normal r out → filepath.Clean (filepath.render r out) = filepath.render r out.
Proof.
  intros Hn. unfold filepath.Clean.
  by rewrite rooted_render, clean_elems_render.
Qed.

(** Clean is idempotent. *)
Lemma Clean_idempotent (path : string) :
  filepath.Clean (filepath.Clean path) = filepath.Clean path.
Proof. apply Clean_render, Clean_normal. Qed.

Lemma Clean_nonempty (path : string) : filepath.Clean path ≠ "".
Proof. apply render_nonempty, Clean_normal. Qed.

(** Joining a file name to a cleaned directory pushes it on the stack. *)
Lemma Join_render r out (f : string) :
  normal r out → plain f →
  filepath.Join (filepath.render r out) f = filepath.render r (f :: out).
Proof.
  intros Hn Hf. unfold filepath.Join.
  rewrite bool_decide_eq_false_2 by (by apply render_nonempty).
  unfold filepath.Clean.
  rewrite rooted_app, rooted_render by (by try apply render_nonempty).
  rewrite split_app_sep, clean_elems_app, clean_elems_render by done.
  rewrite (split_id f) by (by destruct Hf as (_ & _ & _ & ?)).
  by rewrite clean_elems_plain.
Qed.

Lemma upto_last_sep_sepfree (f : string) :
  filepath.has_sep f = false → filepath.upto_last_sep f = "".
Proof. destruct f as [|c f]; [done|]. cbn [filepath.upto_last_sep]. by intros ->. Qed.

Lemma after_last_sep_sepfree (f : string) :
  filepath.has_sep f = false → filepath.after_last_sep f = f.
Proof. destruct f as [|c f]; [done|]. cbn [filepath.after_last_sep]. by intros ->. Qed.

Lemma upto_last_sep_cons (c : ascii) (s : string) :
  filepath.upto_last_sep (String c s) =
  if filepath.has_sep (String c s) then String c (filepath.upto_last_sep s) else "".
Proof. reflexivity. Qed.

Lemma after_last_sep_cons (c : ascii) (s : string) :
  filepath.after_last_sep (String c s) =
  if filepath.has_sep (String c s) then filepath.after_last_sep s else String c s.
Proof. reflexivity. Qed.

Lemma trim_trailing_sep_cons (c : ascii) (s : string) :
  filepath.trim_trailing_sep (String c s) =
  if filepath.all_sep (String c s) then "" else String c (filepath.trim_trailing_sep s).
Proof. reflexivity. Qed.

Lemma has_sep_app_sep (x f : string) : filepath.has_sep (x +:+ "/" +:+ f) = true.
Proof. rewrite !has_sep_app. by rewrite orb_true_r. Qed.

Lemma upto_last_sep_app (x f : string) :
  filepath.has_sep f = false →
  filepath.upto_last_sep (x +:+ "/" +:+ f) = x +:+ "/".
Proof.
  intros Hf. induction x as [|c x IH].
  - rewrite !sapp_nil_l, sapp_cons, sapp_nil_l.
    cbn [filepath.upto_last_sep filepath.has_sep]. change (filepath.is_sep "/") with true.
    cbn [orb]. by rewrite upto_last_sep_sepfree.
  - rewrite (sapp_cons c x), upto_last_sep_cons, <-(sapp_cons c x).
    by rewrite has_sep_app_sep, IH.
Qed.

Lemma after_last_sep_app (x f : string) :
  filepath.has_sep f = false →
  filepath.after_last_sep (x +:+ "/" +:+ f) = f.
Proof.
  intros Hf. induction x as [|c x IH].
  - rewrite !sapp_nil_l, sapp_cons, sapp_nil_l.
    cbn [filepath.after_last_sep filepath.has_sep]. change (filepath.is_sep "/") with true.
    cbn [orb]. by rewrite after_last_sep_sepfree.
  - rewrite (sapp_cons c x), after_last_sep_cons, <-(sapp_cons c x).
    by rewrite has_sep_app_sep, IH.
Qed.

Lemma all_sep_app (a b : string) :
  filepath.all_sep (a +:+ b) = filepath.all_sep a && filepath.all_sep b.
Proof.
  induction a as [|c a IH]; [done|].
  rewrite sapp_cons. cbn [filepath.all_sep]. by rewrite IH, andb_assoc.
Qed.

Lemma all_sep_sepfree (f : string) :
  f ≠ "" → filepath.has_sep f = false → filepath.all_sep f = false.
Proof.
  destruct f as [|c f]; [done|]. cbn [filepath.has_sep filepath.all_sep].
  by intros _ [-> _]%orb_false_iff.
Qed.

(** A path that ends in a file name has no trailing separators. *)
Lemma trim_trailing_sep_app (x f : string) :
  f ≠ "" → filepath.has_sep f = false →
  filepath.trim_trailing_sep (x +:+ f) = x +:+ f.
Proof.
  intros Hne Hf.
  assert (∀ g, filepath.has_sep g = false → filepath.trim_trailing_sep g = g) as Hfree.
  { induction g as [|c g IH]; [done|]. cbn [filepath.has_sep filepath.trim_trailing_sep filepath.all_sep].
    intros [Hc Hg]%orb_false_iff. by rewrite Hc, IH. }
  induction x as [|c x IH]; [by apply Hfree|].
  rewrite (sapp_cons c x), trim_trailing_sep_cons, <-(sapp_cons c x).
  by rewrite all_sep_app, (all_sep_sepfree f), andb_false_r, IH.
Qed.

(** The rendering of a stack with a file name on top. *)
Lemma render_push r out (f : string) :
  normal r out →
  filepath.render r (f :: out) =
  match out, r with
  | [], false => f
  | [], true => "/" +:+ f
  | _, _ => filepath.render r out +:+ "/" +:+ f
  end.
Proof.
  intros Hn. unfold filepath.render. rewrite reverse_cons.
  destruct out as [|e0 out].
  - by destruct r.
  - rewrite join_elems_snoc.
    + destruct r; [|done]. by rewrite sapp_assoc.
    + intros Hr. apply (f_equal reverse) in Hr. by rewrite reverse_involutive in Hr.
Qed.

Lemma Clean_render_sep r out :
  normal r out → filepath.Clean (filepath.render r out +:+ "/") = filepath.render r out.
Proof.
  intros Hn. unfold filepath.Clean.
  rewrite rooted_app, rooted_render by (by try apply render_nonempty).
  change "/" with ("/" +:+ "").
  by rewrite split_app_sep, clean_elems_app, clean_elems_render.
Qed.

(** The directory of a file in a cleaned directory is that directory. *)
Lemma Dir_render_push r out (f : string) :
  normal r out → plain f →
  filepath.Dir (filepath.render r (f :: out)) = filepath.render r out.
Proof.
  intros Hn (Hf1 & _ & _ & Hf2). rewrite render_push by done.
  unfold filepath.Dir. destruct out as [|e0 out].
  - destruct r.
    + change ("/" +:+ f) with ("" +:+ "/" +:+ f). by rewrite upto_last_sep_app.
    + by rewrite upto_last_sep_sepfree.
  - rewrite upto_last_sep_app by done. by apply Clean_render_sep.
Qed.

(** The last element of a file in a cleaned directory is its name. *)
Lemma Base_render_push r out (f : string) :
  normal r out → plain f →
  filepath.Base (filepath.render r (f :: out)) = f.
Proof.
  intros Hn Hf. pose proof Hf as (Hf1 & _ & _ & Hf2). unfold filepath.Base.
  rewrite bool_decide_eq_false_2 by (by apply render_nonempty, normal_push).
  rewrite render_push by done.
  assert (∀ x, filepath.after_last_sep (filepath.trim_trailing_sep (x +:+ "/" +:+ f)) = f)
    as Hx.
  { intros x. rewrite <-sapp_assoc, trim_trailing_sep_app, sapp_assoc by done.
    by apply after_last_sep_app. }
  assert (filepath.after_last_sep (filepath.trim_trailing_sep f) = f) as Hx0.
  { pose proof (trim_trailing_sep_app "" f Hf1 Hf2) as Ht.
    rewrite sapp_nil_l in Ht. rewrite Ht. by apply after_last_sep_sepfree. }
  cbv zeta. destruct out as [|e0 out]; [destruct r|].
  - change ("/" +:+ f) with ("" +:+ "/" +:+ f).
    by rewrite Hx, bool_decide_eq_false_2.
  - by rewrite Hx0, bool_decide_eq_false_2.
  - by rewrite Hx, bool_decide_eq_false_2.
Qed.

(** In a path built by Join from any directory name and a file name, the
    file name is the last element. *)
Lemma Join_plain_shape (dir f : string) :
  plain f →
  ∃ r out, normal r out ∧ filepath.Join dir f = filepath.render r (f :: out).
Proof.
  intros Hf. pose proof Hf as (Hf1 & _ & _ & Hf2). unfold filepath.Join.
  case_bool_decide as Hd.
  - rewrite bool_decide_eq_false_2 by done. unfold filepath.Clean.
    rewrite rooted_sepfree, split_id, clean_elems_plain by done.
    exists false, []. split; [apply normal_nil|done].
  - unfold filepath.Clean. rewrite rooted_app by done.
    rewrite split_app_sep, clean_elems_app, (split_id f), clean_elems_plain by done.
    eexists _, _. split; [|done]. apply Clean_normal.
Qed.

Lemma Base_Join (dir f : string) : plain f → filepath.Base (filepath.Join dir f) = f.
Proof.
  intros Hf. destruct (Join_plain_shape dir f Hf) as (r & out & Hn & ->).
  by apply Base_render_push.
Qed.

Lemma Join_injective (dir f g : string) :
  plain f → plain g → filepath.Join dir f = filepath.Join dir g → f = g.
Proof.
  intros Hf Hg Heq. apply (f_equal filepath.Base) in Heq.
  by rewrite !Base_Join in Heq.
Qed.

Lemma all_chars_app p (a b : string) :
  all_chars p (a +:+ b) = all_chars p a && all_chars p b.
Proof.
  induction a as [|c a IH]; [done|].
  rewrite sapp_cons. cbn [all_chars]. by rewrite IH, andb_assoc.
Qed.

Lemma all_chars_impl (p q : ascii → bool) (s : string) :
  (∀ c, p c = true → q c = true) → all_chars p s = true → all_chars q s = true.
Proof.
  intros Hpq. induction s as [|c s IH]; [done|]. cbn [all_chars].
  intros [Hc Hs]%andb_true_iff. by rewrite (Hpq _ Hc), IH.
Qed.

Lemma sapp_inj_r (a b c : string) : a +:+ c = b +:+ c → a = b.
Proof.
  revert b. induction a as [|x a IH]; intros [|y b] Heq; [done| | |].
  - apply (f_equal String.length) in Heq.
    rewrite sapp_nil_l, sapp_length in Heq. cbn [String.length] in Heq. lia.
  - apply (f_equal String.length) in Heq.
    rewrite sapp_nil_l, sapp_length in Heq. cbn [String.length] in Heq. lia.
  - rewrite !sapp_cons in Heq. injection Heq as -> Heq. f_equal. by apply IH.
Qed.

(** *** Lower case *)

Lemma lower_char_sep (c : ascii) : filepath.is_sep (gostrings.lower_char c) = filepath.is_sep c.
Proof. destruct c as [[] [] [] [] [] [] [] []]; by vm_compute. Qed.

Lemma lower_char_idempotent (c : ascii) :
  gostrings.lower_char (gostrings.lower_char c) = gostrings.lower_char c.
Proof. destruct c as [[] [] [] [] [] [] [] []]; by vm_compute. Qed.

Lemma lower_char_digit (c : ascii) : regexp.is_digit c = true → lower_fixed c = true.
Proof. destruct c as [[] [] [] [] [] [] [] []]; by vm_compute. Qed.

Lemma ToLower_app (a b : string) :
  gostrings.ToLower (a +:+ b) = gostrings.ToLower a +:+ gostrings.ToLower b.
Proof.
  induction a as [|c a IH]; [done|].
  rewrite sapp_cons. cbn [gostrings.ToLower]. by rewrite IH.
Qed.

Lemma ToLower_fixed (s : string) :
  gostrings.ToLower s = s ↔ all_chars lower_fixed s = true.
Proof.
  induction s as [|c s IH]; [done|]. cbn [gostrings.ToLower all_chars].
  rewrite andb_true_iff, <-IH. unfold lower_fixed. rewrite bool_decide_eq_true.
  split; [by intros [= -> ->]|by intros [-> ->]].
Qed.

Lemma ToLower_lower (s : string) : all_chars lower_fixed (gostrings.ToLower s) = true.
Proof.
  induction s as [|c s IH]; [done|]. cbn [gostrings.ToLower all_chars].
  rewrite IH, andb_true_r. unfold lower_fixed.
  by rewrite bool_decide_eq_true_2 by apply lower_char_idempotent.
Qed.

Lemma has_sep_ToLower (s : string) :
  filepath.has_sep (gostrings.ToLower s) = filepath.has_sep s.
Proof.
  induction s as [|c s IH]; [done|]. cbn [gostrings.ToLower filepath.has_sep].
  by rewrite lower_char_sep, IH.
Qed.

Lemma all_sep_ToLower (s : string) :
  filepath.all_sep (gostrings.ToLower s) = filepath.all_sep s.
Proof.
  induction s as [|c s IH]; [done|]. cbn [gostrings.ToLower filepath.all_sep].
  by rewrite lower_char_sep, IH.
Qed.

Lemma trim_trailing_sep_ToLower (s : string) :
  filepath.trim_trailing_sep (gostrings.ToLower s) =
  gostrings.ToLower (filepath.trim_trailing_sep s).
Proof.
  induction s as [|c s IH]; [done|].
  rewrite trim_trailing_sep_cons.
  change (gostrings.ToLower (String c s))
    with (String (gostrings.lower_char c) (gostrings.ToLower s)).
  rewrite trim_trailing_sep_cons.
  change (String (gostrings.lower_char c) (gostrings.ToLower s))
    with (gostrings.ToLower (String c s)).
  rewrite all_sep_ToLower. destruct (filepath.all_sep (String c s)); [done|].
  cbn [gostrings.ToLower]. by rewrite IH.
Qed.

Lemma after_last_sep_ToLower (s : string) :
  filepath.after_last_sep (gostrings.ToLower s) =
  gostrings.ToLower (filepath.after_last_sep s).
Proof.
  induction s as [|c s IH]; [done|].
  rewrite after_last_sep_cons.
  change (gostrings.ToLower (String c s))
    with (String (gostrings.lower_char c) (gostrings.ToLower s)).
  rewrite after_last_sep_cons.
  change (String (gostrings.lower_char c) (gostrings.ToLower s))
    with (gostrings.ToLower (String c s)).
  rewrite has_sep_ToLower. by destruct (filepath.has_sep (String c s)).
Qed.

(** Base commutes with the lower-casing of a path. *)
Lemma Base_ToLower (s : string) :
  filepath.Base (gostrings.ToLower s) = gostrings.ToLower (filepath.Base s).
Proof.
  unfold filepath.Base.
  rewrite trim_trailing_sep_ToLower, after_last_sep_ToLower.
  destruct s as [|c s]; [done|].
  rewrite (bool_decide_eq_false_2 (gostrings.ToLower (String c s) = "")) by done.
  rewrite (bool_decide_eq_false_2 (String c s = "")) by done. cbv zeta.
  destruct (filepath.after_last_sep (filepath.trim_trailing_sep (String c s)));
    done.
Qed.

(** *** ASCII names *)

Lemma lower_char_ascii (c : ascii) :
  gostrings.is_ascii c = true → gostrings.is_ascii (gostrings.lower_char c) = true.
Proof. destruct c as [[] [] [] [] [] [] [] []]; by vm_compute. Qed.

Lemma digit_ascii (c : ascii) : regexp.is_digit c = true → gostrings.is_ascii c = true.
Proof. destruct c as [[] [] [] [] [] [] [] []]; by vm_compute. Qed.

Lemma ToLower_ascii (s : string) :
  all_chars gostrings.is_ascii s = true →
  all_chars gostrings.is_ascii (gostrings.ToLower s) = true.
Proof.
  induction s as [|c s IH]; [done|]. cbn [gostrings.ToLower all_chars].
  intros [Hc Hs]%andb_true_iff. by rewrite lower_char_ascii, IH.
Qed.

(** The paths with a last element [f] in a cleaned directory differ in
    [f] only. *)
Lemma render_push_prefix r out :
  normal r out → ∃ pre, ∀ f, filepath.render r (f :: out) = pre +:+ f.
Proof.
  intros Hn. destruct out as [|e0 out]; [destruct r|].
  - exists "/". intros f. by rewrite render_push.
  - exists "". intros f. by rewrite render_push.
  - exists (filepath.render r (e0 :: out) +:+ "/"). intros f.
    by rewrite render_push, sapp_assoc.
Qed.

Lemma render_push_chars p r out (f g : string) :
  normal r out →
  all_chars p (filepath.render r (f :: out)) = true →
  all_chars p f = true ∧
  (all_chars p g = true → all_chars p (filepath.render r (g :: out)) = true).
Proof.
  intros Hn. destruct (render_push_prefix r out Hn) as [pre Hpre].
  rewrite !Hpre, !all_chars_app. intros [-> ->]%andb_true_iff. by split.
Qed.

(** *** Extension and stem *)

Lemma has_dot_app (a b : string) :
  filepath.has_dot (a +:+ b) = filepath.has_dot a || filepath.has_dot b.
Proof.
  induction a as [|c a IH]; [done|].
  rewrite sapp_cons. cbn [filepath.has_dot]. by rewrite IH, orb_assoc.
Qed.

Lemma from_last_dot_no_dot (s : string) :
  filepath.has_dot s = false → filepath.from_last_dot s = "".
Proof.
  induction s as [|c s IH]; [done|]. cbn [filepath.has_dot filepath.from_last_dot].
  intros [Hc Hs]%orb_false_iff. by rewrite Hs, Hc.
Qed.

(** A name is a stem followed by its extension, which is empty for a name
    without a dot and otherwise a dot followed by characters other than a
    dot. *)
Lemma from_last_dot_split (s : string) :
  ∃ stem, s = stem +:+ filepath.from_last_dot s ∧
    (filepath.has_dot s = false ∧ filepath.from_last_dot s = "" ∨
     ∃ e, filepath.from_last_dot s = String "." e ∧ filepath.has_dot e = false).
Proof.
  induction s as [|c s (stem & Hs & IH)]; [exists ""; by split; [|left]|].
  cbn [filepath.from_last_dot filepath.has_dot].
  destruct (filepath.has_dot s) eqn:Hd.
  - exists (String c stem). rewrite sapp_cons, <-Hs. split; [done|].
    destruct IH as [[? _]|IH]; [done|by right].
  - case_bool_decide as Hc.
    + subst c. exists "". split; [done|]. right. by exists s.
    + exists (String c s). rewrite sapp_nil_r. split; [done|]. by left.
Qed.

Lemma from_last_dot_app (x e : string) :
  filepath.has_dot e = false →
  filepath.from_last_dot (x +:+ String "." e) = String "." e.
Proof.
  intros He. induction x as [|c x IH].
  - rewrite sapp_nil_l. cbn [filepath.from_last_dot]. by rewrite He.
  - rewrite sapp_cons. cbn [filepath.from_last_dot].
    rewrite has_dot_app. cbn [filepath.has_dot].
    rewrite bool_decide_eq_true_2 by done. by rewrite orb_true_r.
Qed.

Lemma TrimSuffix_app (s t : string) : gostrings.TrimSuffix (s +:+ t) t = s.
Proof.
  induction s as [|c s IH].
  - rewrite sapp_nil_l. destruct t; cbn [gostrings.TrimSuffix];
      by rewrite decide_True.
  - rewrite sapp_cons. cbn [gostrings.TrimSuffix].
    rewrite decide_False.
    + assert ((String.length t <? String.length (String c (s +:+ t))) = true) as ->.
      { apply Nat.ltb_lt. cbn [String.length]. rewrite sapp_length. lia. }
      by rewrite IH.
    + intros Heq. apply (f_equal String.length) in Heq.
      cbn [String.length] in Heq. rewrite sapp_length in Heq. lia.
Qed.

(** *** The trailing run *)

Lemma until_newline_id (s : string) :
  all_chars not_newline s = true → regexp.until_newline s = s.
Proof.
  induction s as [|c s IH]; [done|]. cbn [all_chars regexp.until_newline].
  intros [Hc Hs]%andb_true_iff. unfold not_newline in Hc.
  apply negb_true_iff in Hc. by rewrite Hc, IH.
Qed.

Lemma until_newline_prefix (s : string) :
  ∃ t, s = regexp.until_newline s +:+ t.
Proof.
  induction s as [|c s [t IH]]; [by exists ""|]. cbn [regexp.until_newline].
  case_bool_decide; [by eexists|]. exists t. by rewrite sapp_cons, <-IH.
Qed.

Lemma until_newline_free (s : string) :
  all_chars not_newline (regexp.until_newline s) = true.
Proof.
  induction s as [|c s IH]; [done|]. cbn [regexp.until_newline].
  case_bool_decide as Hc; [done|]. cbn [all_chars]. rewrite IH, andb_true_r.
  unfold not_newline. by rewrite bool_decide_eq_false_2.
Qed.

Lemma drop_trailing_cons p (c : ascii) (s : string) :
  regexp.drop_trailing p (String c s) =
  match regexp.drop_trailing p s with
  | EmptyString => if p c then EmptyString else String c EmptyString
  | r' => String c r'
  end.
Proof. reflexivity. Qed.

Lemma drop_trailing_prefix p (s : string) :
  ∃ t, s = regexp.drop_trailing p s +:+ t.
Proof.
  induction s as [|c s [t IH]]; [by exists ""|]. rewrite drop_trailing_cons.
  destruct (regexp.drop_trailing p s) as [|d r'] eqn:Hd.
  - destruct (p c); [by eexists|]. exists t. by rewrite sapp_cons, <-IH.
  - exists t. by rewrite sapp_cons, <-IH.
Qed.

Lemma drop_trailing_all p (t : string) :
  all_chars p t = true → regexp.drop_trailing p t = "".
Proof.
  induction t as [|c t IH]; [done|]. cbn [all_chars].
  intros [Hc Ht]%andb_true_iff. by rewrite drop_trailing_cons, IH, Hc.
Qed.

Lemma drop_trailing_app_all p (s t : string) :
  all_chars p t = true →
  regexp.drop_trailing p (s +:+ t) = regexp.drop_trailing p s.
Proof.
  intros Ht. induction s as [|c s IH]; [by apply drop_trailing_all|].
  by rewrite sapp_cons, !drop_trailing_cons, IH.
Qed.

Lemma drop_trailing_snoc p (s : string) (c : ascii) :
  p c = false →
  regexp.drop_trailing p (s +:+ String c "") = s +:+ String c "".
Proof.
  intros Hc. induction s as [|d s IH].
  - rewrite sapp_nil_l, drop_trailing_cons. cbn. by rewrite Hc.
  - rewrite sapp_cons, drop_trailing_cons, IH. by destruct s.
Qed.

Lemma drop_trailing_idempotent p (s : string) :
  regexp.drop_trailing p (regexp.drop_trailing p s) = regexp.drop_trailing p s.
Proof.
  induction s as [|c s IH]; [done|]. rewrite drop_trailing_cons.
  destruct (regexp.drop_trailing p s) as [|d r'] eqn:Hd.
  - destruct (p c) eqn:Hc; [done|]. rewrite drop_trailing_cons. cbn. by rewrite Hc.
  - by rewrite drop_trailing_cons, IH.
Qed.






(** *** Decimal numbers *)

Lemma pretty_N_char_digit (x : N) : regexp.is_digit (pretty_N_char x) = true.
Proof. unfold pretty_N_char. by repeat case_match. Qed.

Lemma pretty_N_go_digits (x : N) (s : string) :
  all_chars regexp.is_digit s = true →
  all_chars regexp.is_digit (pretty_N_go x s) = true.
Proof.
  revert s. induction (N.lt_wf_0 x) as [x _ IH]; intros s Hs.
  destruct (decide (x = 0)%N) as [->|Hx]; [by rewrite pretty_N_go_0|].
  rewrite pretty_N_go_step by lia. apply IH.
  - apply N.div_lt; lia.
  - cbn [all_chars]. by rewrite pretty_N_char_digit, Hs.
Qed.

Lemma pretty_nat_digits (i : nat) : all_chars regexp.is_digit (pretty i) = true.
Proof.
  unfold pretty, pretty_nat, pretty, pretty_N. case_decide; [done|].
  by apply pretty_N_go_digits.
Qed.

Lemma pretty_nat_nonempty (i : nat) : pretty i ≠ "".
Proof.
  unfold pretty, pretty_nat, pretty, pretty_N. case_decide as Hi; [done|].
  rewrite pretty_N_go_step by lia.
  intros Heq. apply (f_equal String.length) in Heq.
  assert (∀ x s, String.length s ≤ String.length (pretty_N_go x s)) as Hlen.
  { intros x. induction (N.lt_wf_0 x) as [x _ IH]; intros s.
    destruct (decide (x = 0)%N) as [->|Hx]; [by rewrite pretty_N_go_0|].
    rewrite pretty_N_go_step by lia.
    etrans; [|apply IH; apply N.div_lt; lia]. cbn. lia. }
  specialize (Hlen (N.of_nat i `div` 10)%N
                (String (pretty_N_char (N.of_nat i `mod` 10)) "")).
  rewrite Heq in Hlen. cbn in Hlen. lia.
Qed.

Lemma digits_no_dot (s : string) :
  all_chars regexp.is_digit s = true → filepath.has_dot s = false.
Proof.
  induction s as [|c s IH]; [done|]. cbn [all_chars filepath.has_dot].
  intros [Hc Hs]%andb_true_iff. rewrite IH, orb_false_r by done.
  apply bool_decide_eq_false. by intros ->.
Qed.

Lemma digits_no_sep (s : string) :
  all_chars regexp.is_digit s = true → filepath.has_sep s = false.
Proof.
  induction s as [|c s IH]; [done|]. cbn [all_chars filepath.has_sep].
  intros [Hc Hs]%andb_true_iff. rewrite IH, orb_false_r by done.
  apply bool_decide_eq_false. by intros ->.
Qed.

Lemma digits_no_newline (s : string) :
  all_chars regexp.is_digit s = true → all_chars not_newline s = true.
Proof.
  apply all_chars_impl. intros c Hc. unfold not_newline.
  apply negb_true_iff, bool_decide_eq_false. by intros ->.
Qed.

(** *** The names uniqueName tries *)

Section suffixed.
Variable base : string.
Hypothesis base_plain : plain base.

Local Abbreviation file := (gostrings.ToLower base).
Local Abbreviation ext := (suffix_ext base).
Local Abbreviation stem := (suffix_stem base).
Local Abbreviation name1 := (suffix_name1 base).

Lemma suffixed_name_eq i : suffixed_name base i = name1 +:+ "_" +:+ pretty i +:+ ext.
Proof. reflexivity. Qed.

Lemma file_sepfree : filepath.has_sep file = false.
Proof. rewrite has_sep_ToLower. by destruct base_plain as (_ & _ & _ & ?). Qed.

Lemma ext_eq : ext = filepath.from_last_dot file.
Proof. unfold suffix_ext, filepath.Ext. by rewrite after_last_sep_sepfree by apply file_sepfree. Qed.

Lemma file_split : file = stem +:+ ext.
Proof.
  destruct (from_last_dot_split file) as (stem' & Hs & _).
  rewrite <-ext_eq in Hs. unfold suffix_stem. rewrite Hs at 2.
  by rewrite TrimSuffix_app.
Qed.

Lemma stem_split : ∃ t, stem = name1 +:+ t.
Proof.
  unfold suffix_name1, regexp.uniqueRe_FindStringSubmatch1.
  destruct (until_newline_prefix stem) as [t1 H1].
  destruct (drop_trailing_prefix regexp.is_digit (regexp.until_newline stem)) as [t2 H2].
  destruct (drop_trailing_prefix (λ c, bool_decide (c = "_"%char))
              (regexp.drop_trailing regexp.is_digit (regexp.until_newline stem)))
    as [t3 H3].
  exists (t3 +:+ t2 +:+ t1). rewrite H1 at 1. rewrite H2 at 1. rewrite H3 at 1.
  by rewrite !sapp_assoc.
Qed.

Lemma name1_sepfree : filepath.has_sep name1 = false.
Proof.
  pose proof file_sepfree as Hf. destruct stem_split as [t Ht].
  rewrite file_split, Ht, !has_sep_app in Hf.
  by apply orb_false_iff in Hf as [[? _]%orb_false_iff _].
Qed.

Lemma ext_sepfree : filepath.has_sep ext = false.
Proof.
  pose proof file_sepfree as Hf. rewrite file_split, has_sep_app in Hf.
  by apply orb_false_iff in Hf as [_ ?].
Qed.

Lemma name1_lower : all_chars lower_fixed name1 = true.
Proof.
  pose proof (ToLower_lower base) as Hf.
  destruct stem_split as [t Ht].
  rewrite file_split, Ht, !all_chars_app in Hf.
  by apply andb_true_iff in Hf as [[? _]%andb_true_iff _].
Qed.

Lemma ext_lower : all_chars lower_fixed ext = true.
Proof.
  pose proof (ToLower_lower base) as Hf.
  rewrite file_split, all_chars_app in Hf.
  by apply andb_true_iff in Hf as [_ ?].
Qed.

Lemma name1_no_newline : all_chars not_newline name1 = true.
Proof.
  pose proof (until_newline_free stem) as Hn.
  destruct (drop_trailing_prefix regexp.is_digit (regexp.until_newline stem)) as [t2 H2].
  destruct (drop_trailing_prefix (λ c, bool_decide (c = "_"%char))
              (regexp.drop_trailing regexp.is_digit (regexp.until_newline stem)))
    as [t3 H3].
  rewrite H2, H3, !all_chars_app in Hn.
  by apply andb_true_iff in Hn as [[? _]%andb_true_iff _].
Qed.

Lemma name1_fixed :
  regexp.drop_trailing (λ c, bool_decide (c = "_"%char)) name1 = name1.
Proof. apply drop_trailing_idempotent. Qed.

(** The expression of uniqueName takes a suffix back off. *)
Lemma uniqueRe_suffixed (i : nat) :
  regexp.uniqueRe_FindStringSubmatch1 (name1 +:+ "_" +:+ pretty i) = name1.
Proof.
  unfold regexp.uniqueRe_FindStringSubmatch1 at 1.
  rewrite until_newline_id.
  - rewrite <-(sapp_assoc name1 "_" (pretty i)).
    rewrite (drop_trailing_app_all regexp.is_digit (name1 +:+ "_") (pretty i))
      by apply pretty_nat_digits.
    rewrite (drop_trailing_snoc regexp.is_digit name1 "_") by done.
    rewrite (drop_trailing_app_all _ name1 "_") by done. apply name1_fixed.
  - rewrite !all_chars_app, name1_no_newline.
    by rewrite (digits_no_newline (pretty i)) by apply pretty_nat_digits.
Qed.

Lemma suffixed_name_sepfree i : filepath.has_sep (suffixed_name base i) = false.
Proof.
  rewrite suffixed_name_eq, !has_sep_app, name1_sepfree, ext_sepfree.
  by rewrite (digits_no_sep (pretty i)) by apply pretty_nat_digits.
Qed.

Lemma suffixed_name_plain i : plain (suffixed_name base i).
Proof.
  assert (all_chars (λ c, bool_decide (c = "."%char)) (suffixed_name base i) = false)
    as Hdots.
  { rewrite suffixed_name_eq, !all_chars_app. cbn [all_chars].
    rewrite (bool_decide_eq_false_2 ("_"%char = "."%char)) by done.
    by rewrite andb_false_r. }
  split_and!.
  - intros Heq. by rewrite Heq in Hdots.
  - intros Heq. by rewrite Heq in Hdots.
  - intros Heq. by rewrite Heq in Hdots.
  - apply suffixed_name_sepfree.
Qed.

Lemma suffixed_name_lower i :
  gostrings.ToLower (suffixed_name base i) = suffixed_name base i.
Proof.
  apply ToLower_fixed.
  rewrite suffixed_name_eq, !all_chars_app, name1_lower, ext_lower.
  rewrite (all_chars_impl regexp.is_digit lower_fixed (pretty i) lower_char_digit)
    by apply pretty_nat_digits.
  done.
Qed.

Lemma Ext_suffixed_name i : filepath.Ext (suffixed_name base i) = ext.
Proof.
  unfold filepath.Ext at 1.
  rewrite after_last_sep_sepfree by apply suffixed_name_sepfree.
  rewrite suffixed_name_eq.
  destruct (from_last_dot_split file) as (stem' & Hs & [[Hd He]|(e & He & Hd)]);
    rewrite <-ext_eq in *.
  - rewrite He. apply from_last_dot_no_dot.
    destruct stem_split as [t Ht].
    rewrite file_split, Ht, !has_dot_app in Hd.
    apply orb_false_iff in Hd as [[Hn _]%orb_false_iff _].
    rewrite !has_dot_app, Hn.
    by rewrite (digits_no_dot (pretty i)) by apply pretty_nat_digits.
  - rewrite He. rewrite <-!sapp_assoc. by apply from_last_dot_app.
Qed.

Lemma TrimSuffix_suffixed_name i :
  gostrings.TrimSuffix (suffixed_name base i) ext = name1 +:+ "_" +:+ pretty i.
Proof.
  rewrite suffixed_name_eq.
  replace (name1 +:+ "_" +:+ pretty i +:+ ext)
    with ((name1 +:+ "_" +:+ pretty i) +:+ ext) by (by rewrite !sapp_assoc).
  apply TrimSuffix_app.
Qed.

Lemma suffixed_name_inj i j : suffixed_name base i = suffixed_name base j → i = j.
Proof.
  rewrite !suffixed_name_eq. intros Heq.
  apply (inj (String.app name1)) in Heq.
  apply (inj (String.app "_")) in Heq.
  apply sapp_inj_r in Heq. by apply (inj pretty) in Heq.
Qed.

Lemma suffixed_name_ascii i :
  all_chars gostrings.is_ascii base = true →
  all_chars gostrings.is_ascii (suffixed_name base i) = true.
Proof.
  intros Hb. pose proof (ToLower_ascii base Hb) as Hf.
  destruct stem_split as [t Ht].
  rewrite file_split, Ht, !all_chars_app in Hf.
  apply andb_true_iff in Hf as [[Hn _]%andb_true_iff He].
  rewrite suffixed_name_eq, !all_chars_app, Hn, He.
  by rewrite (all_chars_impl regexp.is_digit gostrings.is_ascii (pretty i) digit_ascii)
    by apply pretty_nat_digits.
Qed.


(** One round of the loop of uniqueName, from a destination in a cleaned
    directory whose file name is the base name or one of the suffixed
    names: the next destination is the suffixed name for the counter, in
    the same directory. *)
Lemma uniqueName_round r out (g : string) (i : nat) :
  normal r out →
  g = base ∨ (∃ k, g = suffixed_name base k) →
  let dest := filepath.render r (g :: out) in
  let file := filepath.Base (gostrings.ToLower dest) in
  let ext := filepath.Ext file in
  let name1 := regexp.uniqueRe_FindStringSubmatch1 (gostrings.TrimSuffix file ext) in
  filepath.Join (filepath.Dir dest) (name1 +:+ "_" +:+ pretty i +:+ ext) =
  filepath.render r (suffixed_name base i :: out).
Proof.
  intros Hn Hg. cbv zeta.
  assert (plain g) as Hp.
  { destruct Hg as [->|[k ->]]; [done|apply suffixed_name_plain]. }
  rewrite Base_ToLower, Base_render_push, Dir_render_push by done.
  assert (filepath.Ext (gostrings.ToLower g) = ext ∧
          regexp.uniqueRe_FindStringSubmatch1
            (gostrings.TrimSuffix (gostrings.ToLower g) ext) = name1) as [He Hn1].
  { destruct Hg as [->|[k ->]]; [done|].
    rewrite suffixed_name_lower, Ext_suffixed_name, TrimSuffix_suffixed_name.
    split; [done|apply uniqueRe_suffixed]. }
  rewrite He, Hn1, <-suffixed_name_eq.
  apply Join_render; [done|apply suffixed_name_plain].
Qed.

End suffixed.

(** ** The Document Parser *)

Lemma NewFile_line_title (acc : string * list string) (text : string) :
  (NewFile_line acc text).1 =
  if bool_decide (acc.1 = "") then heading_text text else acc.1.
Proof.
  destruct acc as [title atts]. unfold NewFile_line, heading_text.
  by destruct (regexp.imageRe_FindStringSubmatch1 text), (bool_decide _).
Qed.

Lemma NewFile_scan_fixed (lines : list string) (acc : string * list string) :
  acc.1 ≠ "" → (foldl NewFile_line acc lines).1 = acc.1.
Proof.
  revert acc. induction lines as [|l lines IH]; intros acc Hne; [done|].
  cbn [foldl]. rewrite IH; rewrite NewFile_line_title;
    by rewrite bool_decide_eq_false_2.
Qed.

Lemma NewFile_scan_none (lines : list string) (acc : string * list string) :
  acc.1 = "" → Forall (λ l, heading_text l = "") lines →
  (foldl NewFile_line acc lines).1 = "".
Proof.
  revert acc. induction lines as [|l lines IH]; intros acc He Hall; [done|].
  inversion_clear Hall as [|?? Hl Hall']. cbn [foldl]. apply IH; [|done].
  rewrite NewFile_line_title. by rewrite bool_decide_eq_true_2.
Qed.

Lemma NewFile_scan_first (pre post : list string) (text : string) :
  Forall (λ l, heading_text l = "") pre → heading_text text ≠ "" →
  (NewFile_scan (pre ++ text :: post)).1 = heading_text text.
Proof.
  intros Hpre Hne. unfold NewFile_scan. rewrite foldl_app. cbn [foldl].
  pose proof (NewFile_scan_none pre ("", []) eq_refl Hpre) as Hacc.
  rewrite NewFile_scan_fixed; rewrite NewFile_line_title, Hacc; done.
Qed.

Lemma titleRe_FindString_first (pre rest : string) :
  gostrings.Contains pre "#" = false →
  regexp.titleRe_FindString (pre +:+ "#" +:+ rest) = "#" +:+ regexp.until_newline rest.
Proof.
  induction pre as [|c pre IH]; intros Hc; [done|].
  rewrite Contains_cons, HasPrefix_cons, HasPrefix_nil, andb_true_r in Hc.
  apply orb_false_iff in Hc as [Hc1 Hc2].
  rewrite sapp_cons. cbn [regexp.titleRe_FindString]. rewrite Hc1. by apply IH.
Qed.

Lemma titleRe_FindString_none (text : string) :
  gostrings.Contains text "#" = false → regexp.titleRe_FindString text = "".
Proof.
  induction text as [|c text IH]; intros Hc; [done|].
  rewrite Contains_cons, HasPrefix_cons, HasPrefix_nil, andb_true_r in Hc.
  apply orb_false_iff in Hc as [Hc1 Hc2].
  cbn [regexp.titleRe_FindString]. rewrite Hc1. by apply IH.
Qed.

(** C2, as the code has it.  NewFile sets the title to the heading text of
    the first scanned line whose heading text is not empty, and to the empty
    string when there is no such line; a later line never changes it.  The
    heading text of a line is what follows its first [#] without the [#] and
    space characters at its front, and nothing is taken off its end. *)
Theorem NewFile_title {St : Type} `{Fs St} (w : World St) (path content : string)
    (close : option error) :
  Open (wfs w) path = OpenFile content close →
  ∃ f, (NewFile w path).2 = inr f ∧ Path f = path ∧
    (∀ pre text post,
       bufio.ScanLines content = pre ++ text :: post →
       Forall (λ l, heading_text l = "") pre →
       heading_text text ≠ "" →
       Title f = heading_text text) ∧
    (Forall (λ l, heading_text l = "") (bufio.ScanLines content) → Title f = "") ∧
    (∀ pre rest,
       gostrings.Contains pre "#" = false →
       heading_text (pre +:+ "#" +:+ rest) =
       gostrings.TrimLeft (regexp.until_newline rest) " #") ∧
    (∀ text, gostrings.Contains text "#" = false → heading_text text = "").
Proof.
  intros Ho. unfold NewFile. rewrite Ho.
  destruct (NewFile_scan (bufio.ScanLines content)) as [title atts] eqn:Hs.
  eexists. split_and!; [done..| | | |].
  - intros pre text post Hl Hpre Hne. cbn [Title].
    rewrite Hl in Hs. pose proof (NewFile_scan_first pre post text Hpre Hne) as Hf.
    by rewrite Hs in Hf.
  - intros Hall. cbn [Title].
    pose proof (NewFile_scan_none _ ("", []) eq_refl Hall) as Hn.
    unfold NewFile_scan in Hs. by rewrite Hs in Hn.
  - intros pre rest Hc. unfold heading_text.
    by rewrite titleRe_FindString_first.
  - intros text Hc. unfold heading_text. by rewrite titleRe_FindString_none.
Qed.

Lemma NewFile_title_witness :
  ∃ f, (NewFile (world0 sample_fs) "sample.md").2 = inr f ∧
       Title f = "Sample file for testing purpose".
Proof.
  destruct (NewFile_title (world0 sample_fs) "sample.md" sample_md None)
    as (f & Hf & _ & Hfirst & _); [by vm_compute|].
  exists f. split; [done|].
  apply (Hfirst [] "# Sample file for testing purpose"
           [""; "![sample](images/sample.png)"]); by vm_compute.
Defined.

(** C2, as the claim words it, fails: trailing white space stays in the
    title, and a first heading line without text leaves the title to a
    later heading. *)
Lemma NewFile_title_counterexample :
  (∃ f, (NewFile (world0 trailing_space_fs) "a.md").2 = inr f ∧
        Title f = "Title " ∧ Title f ≠ "Title") ∧
  (∃ f, (NewFile (world0 bare_heading_fs) "b.md").2 = inr f ∧
        regexp.titleRe_FindString "#" = "#" ∧ Title f = "Later").
Proof.
  split; eexists; (split; [by vm_compute|]); by vm_compute.
Qed.

Section planner.
Context {St : Type} `{Fs St}.

Lemma isTemplate_wrong dest :
  gostrings.Contains dest "%" = true →
  gostrings.Contains dest "%title%" = false →
  isTemplate dest = (false, Some errWrongTemplate).
Proof. intros H1 H2. unfold isTemplate. by rewrite H1, H2. Qed.


Lemma isTemplate_plain dest :
  gostrings.Contains dest "%" = false → isTemplate dest = (false, None).
Proof. intros H1. unfold isTemplate. by rewrite H1. Qed.

(** C4.  A destination with a [%] but without the placeholder [%title%]
    makes moveFiles, on a batch that is not empty, return the error
    "incorrect template in the destination path"; the file system, the
    log and the files are as they were: nothing has been moved. *)
Theorem moveFiles_wrong_template (files : list File) (dest : string) (w : World St) :
  files ≠ [] →
  gostrings.Contains dest "%" = true →
  gostrings.Contains dest "%title%" = false →
  moveFiles files dest w = (w, files, Some errWrongTemplate).
Proof.
  intros Hne H1 H2. unfold moveFiles.
  rewrite bool_decide_eq_false_2 by (by destruct files).
  by rewrite (isTemplate_wrong _ H1 H2).
Qed.



End planner.

Lemma moveFiles_wrong_template_witness :
  moveFiles [sample_file] "%titl%/README.md" (world0 sample_fs) =
  (world0 sample_fs, [sample_file], Some errWrongTemplate).
Proof.
  apply (moveFiles_wrong_template [sample_file] "%titl%/README.md" (world0 sample_fs));
    [done | by vm_compute | by vm_compute].
Defined.



(** ** The move operations and the stored path *)

Section moves.
Context {St : Type} `{Fs St}.

(** C10.  Once Move has renamed the primary file, the receiver it leaves
    behind has its path set to the destination, whatever Move returns:
    also when the relocation of an attachment fails afterwards. *)
Theorem Move_sets_path_after_rename (f : File) (dest : string) (w : World St)
    (fs1 fs2 : St) (w' : World St) (f' : File) (err : option error) :
  ensureDir (wfs w) dest = (fs1, None) →
  Rename fs1 (Path f) dest = (fs2, None) →
  Move f dest w = (w', f', err) →
  Path f' = dest.
Proof.
  intros He Hr. unfold Move.
  destruct (afero.Exists (wfs w) dest) as [[] []]; cbn [wfs logf];
    rewrite He, Hr; cbv zeta; destruct (_ || _); by intros [= <- <- <-].
Qed.





End moves.

Lemma Move_sets_path_after_rename_witness :
  let r := Move sample_file "other/sample.md" (world0 lonely_fs) in
  r.2 = Some "failed to move the attachment: rename images/sample.png other/images/sample.png: no such file or directory" ∧
  Path r.1.2 = "other/sample.md".
Proof.
  split; [by vm_compute|].
  eapply (Move_sets_path_after_rename sample_file "other/sample.md" (world0 lonely_fs)
            (ensureDir (wfs (world0 lonely_fs)) "other/sample.md").1
            (Rename (ensureDir (wfs (world0 lonely_fs)) "other/sample.md").1
               (Path sample_file) "other/sample.md").1).
  - apply pair_snd_eq. by vm_compute.
  - apply pair_snd_eq. by vm_compute.
  - apply triple_eta.
Defined.


(** C7 fails on the code for MoveToDir.  sample.md is moved into the
    directory [folder]: the call succeeds, the file is at folder/sample.md
    and no longer at sample.md, and the path stored in the receiver is still
    sample.md. *)
Theorem MoveToDir_leaves_path :
  let r := MoveToDir sample_file "folder" (world0 sample_fs) in
  r.2 = None ∧
  afero.Exists (wfs r.1.1) "folder/sample.md" = (true, None) ∧
  afero.Exists (wfs r.1.1) "sample.md" = (false, None) ∧
  Path r.1.2 = "sample.md".
Proof. by vm_compute. Qed.

(** ** Collision-free names *)

Section unique.
Context {St : Type} `{Fs St}.

Lemma uniqueName_loop_eq fuel (w : World St) dest i :
  uniqueName_loop fuel w dest i =
  match afero.Exists (wfs w) dest with
  | (true, None) =>
      match fuel with
      | O => (w, dest)
      | S fuel' =>
          let w :=
            if bool_decide (i = 1)
            then logf ("[WARN] File with the same name already exists: " +:+ dest) w
            else w in
          let file := filepath.Base (gostrings.ToLower dest) in
          let ext := filepath.Ext file in
          let name1 :=
            regexp.uniqueRe_FindStringSubmatch1 (gostrings.TrimSuffix file ext) in
          let file := name1 +:+ "_" +:+ pretty i +:+ ext in
          let dest := filepath.Join (filepath.Dir dest) file in
          uniqueName_loop fuel' w dest (i + 1)
      end
  | _ => (w, dest)
  end.
Proof. by destruct fuel. Qed.

Lemma uniqueName_loop_free fuel (w : World St) dest i :
  afero.Exists (wfs w) dest ≠ (true, None) →
  uniqueName_loop fuel w dest i = (w, dest).
Proof.
  intros Hne. rewrite uniqueName_loop_eq.
  by destruct (afero.Exists (wfs w) dest) as [[] []].
Qed.

Lemma render_push_inj r out (f g : string) :
  normal r out → plain f → plain g →
  filepath.render r (f :: out) = filepath.render r (g :: out) → f = g.
Proof.
  intros Hn Hf Hg Heq. apply (f_equal filepath.Base) in Heq.
  by rewrite !Base_render_push in Heq.
Qed.

(** The loop, started at a suffixed name, stops at the first suffixed name
    that is free, if the fuel reaches that far. *)
Lemma uniqueName_loop_run (base : string) r out (m fuel k : nat) (w : World St) :
  plain base → normal r out → 1 ≤ k → m ≤ fuel →
  (∀ j, k ≤ j < k + m →
     afero.Exists (wfs w) (filepath.render r (suffixed_name base j :: out)) = (true, None)) →
  afero.Exists (wfs w) (filepath.render r (suffixed_name base (k + m) :: out))
    ≠ (true, None) →
  uniqueName_loop fuel w (filepath.render r (suffixed_name base k :: out)) (k + 1) =
  (w, filepath.render r (suffixed_name base (k + m) :: out)).
Proof.
  intros Hb Hn. revert fuel k. induction m as [|m IH]; intros fuel k Hk Hfuel Hex Hfree.
  - rewrite Nat.add_0_r in *. by apply uniqueName_loop_free.
  - destruct fuel as [|fuel]; [lia|].
    rewrite uniqueName_loop_eq, Hex by lia.
    rewrite bool_decide_eq_false_2 by lia. cbv zeta.
    rewrite (uniqueName_round base Hb r out (suffixed_name base k) (k + 1) Hn)
      by eauto.
    rewrite (IH fuel (k + 1)); [|lia|lia| |].
    + by replace (k + 1 + m) with (k + S m) by lia.
    + intros j Hj. apply Hex. lia.
    + by replace (k + 1 + m) with (k + S m) by lia.
Qed.

(** Among finitely many present paths one of the suffixed names is free,
    and there is a first one. *)
Lemma first_free (E : nat → Prop) `{∀ j, Decision (E j)} (n : nat) :
  (∀ j, 1 ≤ j ≤ n → E j) ∨
  (∃ i, 1 ≤ i ≤ n ∧ ¬ E i ∧ ∀ j, 1 ≤ j < i → E j).
Proof.
  induction n as [|n [IH|(i & Hi & Hne & Hlt)]].
  - left. lia.
  - destruct (decide (E (S n))) as [He|He].
    + left. intros j Hj. destruct (decide (j = S n)) as [->|]; [done|].
      apply IH. lia.
    + right. exists (S n). split_and!; [lia..|done|]. intros j Hj. apply IH. lia.
  - right. exists i. split_and!; [lia..|done|done].
Qed.

Lemma suffixed_name_free (base : string) r out (fs : St) :
  plain base → normal r out → walk_complete fs →
  ∃ i, 1 ≤ i ≤ length (Walk fs) + 1 ∧
       afero.Exists fs (filepath.render r (suffixed_name base i :: out)) ≠ (true, None) ∧
       ∀ j, 1 ≤ j < i →
         afero.Exists fs (filepath.render r (suffixed_name base j :: out)) = (true, None).
Proof.
  intros Hb Hn Hwalk.
  destruct (first_free
    (λ j, afero.Exists fs (filepath.render r (suffixed_name base j :: out)) = (true, None))
    (length (Walk fs) + 1)) as [Hall|?]; [|done].
  exfalso.
  set (c := λ j, filepath.render r (suffixed_name base j :: out)).
  assert (NoDup (c <$> seq 1 (length (Walk fs) + 1))) as Hnd.
  { apply NoDup_fmap_2; [|apply NoDup_seq].
    intros i j Hij. apply (suffixed_name_inj base).
    eapply render_push_inj; [done|by apply suffixed_name_plain..|done]. }
  assert (c <$> seq 1 (length (Walk fs) + 1) ⊆+ Walk fs) as Hsub.
  { apply NoDup_submseteq; [done|]. intros p [j [-> Hj]]%list_elem_of_fmap.
    apply elem_of_seq in Hj. unfold c.
    rewrite <-(Clean_render r (suffixed_name base j :: out)).
    - apply Hwalk, Hall. lia.
    - apply normal_push; [by apply suffixed_name_plain|done]. }
  apply submseteq_length in Hsub. rewrite length_fmap, length_seq in Hsub. lia.
Qed.

End unique.

Section unique_theorem.
Context {St : Type} `{Fs St}.


End unique_theorem.

Lemma MemFs_walk_complete (s : gmap string MemFs.node) : walk_complete s.
Proof.
  intros path. unfold afero.Exists. cbn [Stat Walk MemFs.fs].
  unfold MemFs.stat, MemFs.find, MemFs.walk, MemFs.is_root.
  case_bool_decide as Hroot.
  - intros _. destruct Hroot as [-> | ->]; set_solver.
  - destruct (s !! filepath.Clean path) as [nd|] eqn:Hl; [|done]. intros _.
    do 2 right. apply list_elem_of_fmap. exists (filepath.Clean path, nd).
    split; [done|]. by apply elem_of_map_to_list.
Qed.



(** Tidy stems and the names built from them: a group of an underscore and
    digits is replaced, a stem without one is kept; a stem that ends in
    digits without an underscore, or in two underscores, is not tidy. *)
Example tidy_stem_names :
  (tidy_stem (suffix_stem "index_1.md") = true ∧
   spec_suffixed_name "index_1.md" 2 = "index_2.md") ∧
  (tidy_stem (suffix_stem "Report.final.MD") = true ∧
   spec_suffixed_name "Report.final.MD" 1 = "report.final_1.md") ∧
  tidy_stem (suffix_stem "notes2.md") = false ∧
  tidy_stem (suffix_stem "a__1.md") = false.
Proof. by vm_compute. Qed.

(** ** The attachments of a literal move *)

Section attachments.
Context {St : Type} `{Fs St}.
Hypothesis laws : fs_laws St.

Lemma ensureDir_keeps (fs fs' : St) (dest p : string) (r : option error) :
  ensureDir fs dest = (fs', r) →
  afero.Exists fs p = (true, None) → afero.Exists fs' p = (true, None).
Proof.
  unfold ensureDir. destruct (afero.DirExists fs _) as [[] [e|]];
    try (by intros [= <- <-]).
  cbn [negb]. destruct (MkdirAll fs _) as [fs1 [e|]] eqn:Hm;
    intros [= <- <-]; by eapply mkdir_keeps.
Qed.

Lemma ensureDir_adds (fs fs' : St) (dest p : string) (r : option error) :
  ensureDir fs dest = (fs', r) → above p (filepath.Dir dest) = false →
  afero.Exists fs p = (false, None) → afero.Exists fs' p = (false, None).
Proof.
  unfold ensureDir. destruct (afero.DirExists fs _) as [[] [e|]];
    try (by intros [= <- <-]).
  cbn [negb]. destruct (MkdirAll fs _) as [fs1 [e|]] eqn:Hm;
    intros [= <- <-]; by eapply mkdir_adds.
Qed.

Lemma Move_attachments_cons dir dest a rest (fs fs' : St) :
  Move_attachments dir dest (a :: rest) fs = (fs', None) →
  ∃ fs1 fs2,
    ensureDir fs (filepath.Join (filepath.Dir dest) a) = (fs1, None) ∧
    Rename fs1 (filepath.Join dir a) (filepath.Join (filepath.Dir dest) a) = (fs2, None) ∧
    Move_attachments dir dest rest fs2 = (fs', None).
Proof.
  cbn [Move_attachments].
  destruct (ensureDir fs _) as [fs1 [e|]] eqn:He; [done|].
  destruct (Rename fs1 _ _) as [fs2 [e|]] eqn:Hr; [done|].
  intros Hm. by exists fs1, fs2.
Qed.

Lemma Move_attachments_keeps dir dest atts (fs fs' : St) (p : string) :
  Move_attachments dir dest atts fs = (fs', None) →
  Forall (λ b, above (filepath.Join dir b) p = false) atts →
  afero.Exists fs p = (true, None) → afero.Exists fs' p = (true, None).
Proof.
  revert fs. induction atts as [|a rest IH]; intros fs Hm Hall Hp.
  { by injection Hm as <-. }
  apply Move_attachments_cons in Hm as (fs1 & fs2 & He & Hr & Hm).
  apply Forall_cons in Hall as [Ha Hall].
  eapply IH; [done..|].
  eapply rename_keeps; [done..|]. by eapply ensureDir_keeps.
Qed.

Lemma Move_attachments_adds dir dest atts (fs fs' : St) (p : string) :
  Move_attachments dir dest atts fs = (fs', None) →
  Forall (λ b, above (filepath.Join (filepath.Dir dest) b) p = false ∧
               above p (filepath.Dir (filepath.Join (filepath.Dir dest) b)) = false)
    atts →
  afero.Exists fs p = (false, None) → afero.Exists fs' p = (false, None).
Proof.
  revert fs. induction atts as [|a rest IH]; intros fs Hm Hall Hp.
  { by injection Hm as <-. }
  apply Move_attachments_cons in Hm as (fs1 & fs2 & He & Hr & Hm).
  apply Forall_cons in Hall as [[Ha1 Ha2] Hall].
  eapply IH; [done..|].
  eapply rename_adds; [done..|]. by eapply ensureDir_adds.
Qed.

Lemma Move_attachments_moved dir dest atts (fs fs' : St) :
  Move_attachments dir dest atts fs = (fs', None) →
  independent dir (filepath.Dir dest) atts →
  ∀ a, a ∈ atts →
    afero.Exists fs' (filepath.Join (filepath.Dir dest) a) = (true, None) ∧
    (filepath.Clean (filepath.Join dir a) ≠
       filepath.Clean (filepath.Join (filepath.Dir dest) a) →
     afero.Exists fs' (filepath.Join dir a) = (false, None)).
Proof.
  revert fs. induction atts as [|a rest IH]; intros fs Hm Hind x Hx.
  { by apply elem_of_nil in Hx. }
  destruct Hind as [Hall Hind].
  apply Move_attachments_cons in Hm as (fs1 & fs2 & He & Hr & Hm).
  apply elem_of_cons in Hx as [->|Hx]; [|by eapply IH].
  split.
  - eapply Move_attachments_keeps; [done| |by eapply rename_target].
    eapply Forall_impl; [done|]. by intros b (? & _ & _).
  - intros Hne. eapply Move_attachments_adds; [done| |by eapply rename_source].
    eapply Forall_impl; [done|]. by intros b (_ & ? & ?).
Qed.

(** C1, as the code has it.  When Move succeeds for a file with attachments
    and a destination in another directory, the stored path is the
    destination and every attachment exists at [<dir of dest>/<attachment>]
    and, if that is another place than [<original dir>/<attachment>], no
    longer exists there.  This is for attachments that do not get in each
    other's way, on a file system where rename and MkdirAll do what they
    are for. *)
Theorem Move_relocates_attachments (f : File) (dest : string) (w w' : World St)
    (f' : File) :
  Move f dest w = (w', f', None) →
  filepath.Dir (Path f) ≠ filepath.Dir dest →
  Attachments f ≠ [] →
  independent (filepath.Dir (Path f)) (filepath.Dir dest) (Attachments f) →
  Path f' = dest ∧
  ∀ a, a ∈ Attachments f →
    afero.Exists (wfs w') (filepath.Join (filepath.Dir dest) a) = (true, None) ∧
    (filepath.Join (filepath.Dir (Path f)) a ≠ filepath.Join (filepath.Dir dest) a →
     afero.Exists (wfs w') (filepath.Join (filepath.Dir (Path f)) a) = (false, None)).
Proof.
  intros Hm Hdir Hatts Hind.
  assert (∃ fs2, Move_attachments (filepath.Dir (Path f)) dest (Attachments f) fs2
                 = (wfs w', None) ∧ Path f' = dest) as (fs2 & Hloop & Hpath).
  { revert Hm. unfold Move.
    set (w0 := match afero.Exists (wfs w) dest with
               | (true, None) => _ | _ => w end).
    destruct (ensureDir (wfs w0) dest) as [fs1 [e|]]; [done|].
    destruct (Rename fs1 (Path f) dest) as [fs2 [e|]]; [done|]. cbv zeta.
    rewrite bool_decide_eq_false_2 by done.
    rewrite bool_decide_eq_false_2 by (by destruct (Attachments f)).
    cbn [orb]. intros [= <- <- Herr]. exists fs2. split; [|done].
    cbn [wfs with_fs]. by rewrite <-Herr, <-surjective_pairing. }
  split; [done|]. intros a Ha.
  destruct (Move_attachments_moved _ _ _ _ _ Hloop Hind a Ha) as [Hnew Hold].
  split; [done|]. intros Hne. apply Hold.
  assert (∀ d, filepath.Clean (filepath.Join (filepath.Dir d) a) =
               filepath.Join (filepath.Dir d) a) as Hclean.
  { intros d. unfold filepath.Join.
    rewrite bool_decide_eq_false_2 by apply Clean_nonempty.
    apply Clean_idempotent. }
  by rewrite !Hclean.
Qed.

End attachments.

(** ** The in-memory file system keeps the laws *)

Lemma MemFs_Exists_true (s : gmap string MemFs.node) (p : string) :
  afero.Exists s p = (true, None) ↔ is_Some (MemFs.find s p).
Proof.
  unfold afero.Exists. cbn [Stat MemFs.fs]. unfold MemFs.stat.
  destruct (MemFs.find s p) as [[]|]; split; (done || by intros [? ?] || eauto).
Qed.

Lemma MemFs_Exists_false (s : gmap string MemFs.node) (p : string) :
  afero.Exists s p = (false, None) ↔ MemFs.find s p = None.
Proof.
  unfold afero.Exists. cbn [Stat MemFs.fs]. unfold MemFs.stat.
  by destruct (MemFs.find s p) as [[]|].
Qed.

(** What a successful rename has done. *)
Lemma MemFs_rename_ok (s s' : gmap string MemFs.node) (a b : string) :
  MemFs.rename s a b = (s', None) →
  MemFs.is_root (filepath.Clean a) = false ∧
  ∃ nd, s !! filepath.Clean a = Some nd ∧
    (filepath.Clean a = filepath.Clean b ∧ s' = s ∨
     filepath.Clean a ≠ filepath.Clean b ∧
     MemFs.is_root (filepath.Clean b) = false ∧
     s' = <[filepath.Clean b := nd]> (delete (filepath.Clean a) s)).
Proof.
  unfold MemFs.rename.
  destruct (MemFs.is_root (filepath.Clean a)) eqn:Hroot; [done|].
  destruct (s !! filepath.Clean a) as [nd|] eqn:Hs; [|done].
  case_bool_decide as Heq.
  { intros [= <-]. split; [done|]. exists nd. split; [done|]. by left. }
  destruct (MemFs.is_root (filepath.Clean b)) eqn:Hrootb; [done|].
  intros Hr. split; [done|]. exists nd. split; [done|]. right.
  split_and!; [done..|].
  repeat case_match; by simplify_eq.
Qed.

Lemma MemFs_find_insert (s : gmap string MemFs.node) (k : string) nd (p : string) :
  MemFs.find (<[k := nd]> s) p =
  if MemFs.is_root (filepath.Clean p) then Some MemFs.Directory
  else if decide (k = filepath.Clean p) then Some nd else s !! filepath.Clean p.
Proof.
  unfold MemFs.find. destruct (MemFs.is_root _); [done|]. apply lookup_insert.
Qed.

Lemma lineage_head (p : string) : filepath.Clean p ∈ lineage p.
Proof. unfold lineage. destruct (String.length _); left. Qed.

Lemma above_false_ne (a p : string) :
  above a p = false → filepath.Clean a ≠ filepath.Clean p.
Proof.
  intros Ha%bool_decide_eq_false Heq. apply Ha. rewrite Heq. apply lineage_head.
Qed.

Lemma MemFs_mkdir_all_keeps fuel (s s' : gmap string MemFs.node) (k q : string) r :
  MemFs.mkdir_all fuel s k = (s', r) → is_Some (s !! q) → is_Some (s' !! q).
Proof.
  revert s' k r. induction fuel as [|fuel IH]; intros s' k r; cbn [MemFs.mkdir_all].
  - repeat case_match; by intros [= <- <-].
  - destruct (if MemFs.is_root k then _ else _) as [[]|];
      [by intros [= <- <-]..|].
    destruct (MemFs.mkdir_all fuel s (filepath.Dir k)) as [s1 [e|]] eqn:Hm;
      intros [= <- <-] Hq.
    + by eapply IH.
    + rewrite lookup_insert. case_decide; [done|]. by eapply IH.
Qed.

Lemma MemFs_mkdir_all_adds fuel (s s' : gmap string MemFs.node) (k q : string) r :
  MemFs.mkdir_all fuel s k = (s', r) → q ∉ lineage_go fuel k →
  s !! q = None → s' !! q = None.
Proof.
  revert s' k r. induction fuel as [|fuel IH]; intros s' k r; cbn [MemFs.mkdir_all].
  - repeat case_match; by intros [= <- <-].
  - destruct (if MemFs.is_root k then _ else _) as [[]|];
      [by intros [= <- <-]..|].
    cbn [lineage_go]. intros Hm [Hqk Hq]%not_elem_of_cons Hs.
    destruct (MemFs.mkdir_all fuel s (filepath.Dir k)) as [s1 [e|]] eqn:Hm1;
      injection Hm as <- <-.
    + by eapply IH.
    + rewrite lookup_insert_ne by done. by eapply IH.
Qed.

Lemma MemFs_laws : fs_laws (gmap string MemFs.node).
Proof.
  split; cbn [Rename MkdirAll MemFs.fs].
  - intros s s' a b (Hroot & nd & Hs & [[Heq ->]|(Hne & Hrootb & ->)])%MemFs_rename_ok;
      apply MemFs_Exists_true.
    + unfold MemFs.find. rewrite <-Heq, Hroot, Hs. eauto.
    + rewrite MemFs_find_insert, Hrootb, decide_True by done. eauto.
  - intros s s' a b (Hroot & nd & Hs & [[Heq ->]|(Hne & Hrootb & ->)])%MemFs_rename_ok Hab;
      [done|].
    apply MemFs_Exists_false. rewrite MemFs_find_insert, Hroot.
    rewrite decide_False by done. apply lookup_delete_eq.
  - intros s s' a b p (Hroot & nd & Hs & [[Heq ->]|(Hne & Hrootb & ->)])%MemFs_rename_ok
      Hab%above_false_ne; [done|].
    rewrite !MemFs_Exists_true, MemFs_find_insert. unfold MemFs.find.
    destruct (MemFs.is_root (filepath.Clean p)); [done|].
    case_decide; [eauto|]. by rewrite lookup_delete_ne.
  - intros s s' a b p (Hroot & nd & Hs & [[Heq ->]|(Hne & Hrootb & ->)])%MemFs_rename_ok
      Hbp%above_false_ne; [done|].
    rewrite !MemFs_Exists_false, MemFs_find_insert. unfold MemFs.find.
    destruct (MemFs.is_root (filepath.Clean p)); [done|].
    rewrite decide_False by done. intros Hp.
    destruct (decide (filepath.Clean a = filepath.Clean p)) as [<-|];
      [apply lookup_delete_eq|by rewrite lookup_delete_ne].
  - intros s s' d p r Hm. rewrite !MemFs_Exists_true. unfold MemFs.find.
    destruct (MemFs.is_root (filepath.Clean p)); [done|].
    by eapply MemFs_mkdir_all_keeps.
  - intros s s' d p r Hm Hab%bool_decide_eq_false.
    rewrite !MemFs_Exists_false. unfold MemFs.find.
    destruct (MemFs.is_root (filepath.Clean p)); [done|].
    by eapply MemFs_mkdir_all_adds.
Qed.

Lemma Move_relocates_attachments_witness :
  let r := Move sample_file "moved/sample.md" (world0 sample_fs) in
  r.2 = None ∧
  afero.Exists (wfs r.1.1) "moved/images/sample.png" = (true, None) ∧
  afero.Exists (wfs r.1.1) "images/sample.png" = (false, None).
Proof.
  assert ((Move sample_file "moved/sample.md" (world0 sample_fs)).2 = None) as Hok
    by (by vm_compute).
  destruct (Move_relocates_attachments MemFs_laws sample_file "moved/sample.md"
              (world0 sample_fs)
              (Move sample_file "moved/sample.md" (world0 sample_fs)).1.1
              (Move sample_file "moved/sample.md" (world0 sample_fs)).1.2)
    as [_ Hall].
  - rewrite <-Hok. apply triple_eta.
  - by vm_compute.
  - done.
  - by split.
  - destruct (Hall "images/sample.png") as [Hnew Hold]; [by left|].
    cbv zeta. split_and!; [done|exact Hnew|]. apply Hold. by vm_compute.
Defined.

(** C1, as the claim words it, fails.  An attachment referred to through
    the parent directory has the same place before and after the move and
    so still exists at its original location; and an attachment can be
    moved on by a later one, so that it does not exist at its new
    location. *)
Lemma Move_relocates_attachments_counterexample :
  (let r := Move parent_image_file "b/x.md" (world0 parent_image_fs) in
   r.2 = None ∧
   filepath.Dir (Path parent_image_file) ≠ filepath.Dir "b/x.md" ∧
   filepath.Join (filepath.Dir (Path parent_image_file)) "../img.png" = "img.png" ∧
   afero.Exists parent_image_fs "img.png" = (true, None) ∧
   afero.Exists (wfs r.1.1) "img.png" = (true, None)) ∧
  (let r := Move crossing_file "b/c/x.md" (world0 crossing_fs) in
   r.2 = None ∧
   afero.Exists crossing_fs (filepath.Join (filepath.Dir (Path crossing_file)) "p.png")
     = (true, None) ∧
   afero.Exists (wfs r.1.1) (filepath.Join (filepath.Dir "b/c/x.md") "p.png")
     = (false, None)).
Proof. by vm_compute. Qed.

(** ** The Cleanup Sweeper *)

Section sweeper.
Context {St : Type} `{Fs St}.

Lemma cleanUp_loop_sweep (keys : list string) (fs : St) :
  sweep fs keys (cleanUp_loop keys fs).1 (cleanUp_loop keys fs).2.
Proof.
  revert fs. induction keys as [|dir rest IH]; intros fs; [constructor|].
  cbn [cleanUp_loop].
  destruct (afero.DirExists fs dir).1 eqn:Hd; cbn [negb].
  - destruct (afero.IsEmpty fs dir) as [[] [err|]] eqn:He.
    + by eapply sweep_check_failed.
    + destruct (Remove fs dir) as [fs1 [err|]] eqn:Hr.
      * by eapply sweep_remove_failed.
      * eapply sweep_removed; done.
    + by eapply sweep_check_failed.
    + by eapply sweep_not_empty.
  - by apply sweep_absent.
Qed.

(** C9, as the code has it.  cleanUp goes through the candidate directories
    in descending order of their paths.  A directory that the existence
    check does not report (it is gone, it is not a directory, or [Stat] on it
    fails: that error is dropped) is skipped without an error; a directory
    that is not empty is left alone; an empty one is removed; a failure of
    the emptiness check or of the removal of a directory that was found
    ends the sweep with an error, the file system being as the removals
    before it left it. *)
Theorem cleanUp_sweep (fs : St) (keys : list string) :
  sort_reverse keys ≡ₚ keys ∧
  Sorted (flip String.le) (sort_reverse keys) ∧
  sweep fs (sort_reverse keys) (cleanUp fs keys).1 (cleanUp fs keys).2.
Proof.
  split_and!.
  - apply merge_sort_Permutation.
  - apply Sorted_merge_sort. intros x y.
    destruct (total String.le x y); [right|left]; done.
  - apply cleanUp_loop_sweep.
Qed.

End sweeper.

(** C9, as the claim words it, fails: [Stat] fails on the existing empty
    directory a/b, and cleanUp skips it and returns no error. *)
Lemma cleanUp_counterexample :
  MemFs.stat (DenyFs.base locked_fs) "a/b" = StatOk {| IsDir := true; Size := 0 |} ∧
  Stat locked_fs "a/b" = StatErr "stat a/b: permission denied" ∧
  (cleanUp locked_fs ["a/b"]).2 = None ∧
  DenyFs.base (cleanUp locked_fs ["a/b"]).1 = DenyFs.base locked_fs.
Proof. by vm_compute. Qed.

(** The two fatal errors of cleanUp, on directories that exist. *)
Example cleanUp_fatal :
  (cleanUp guarded_fs ["a/b"]).2 =
    Some "failed to check if dir is empty: open a/b: permission denied" ∧
  (cleanUp guarded_fs ["c"; "a"]).2 =
    Some "failed to clean up a dir: remove c: permission denied".
Proof. by vm_compute. Qed.

(** * Further properties of the code *)

(** ** NewFile: attachments and the shape of the title *)

Lemma NewFile_line_attachments (acc : string * list string) (text : string) :
  (NewFile_line acc text).2 =
  acc.2 ++ option_list (regexp.imageRe_FindStringSubmatch1 text).
Proof.
  destruct acc as [title atts]. unfold NewFile_line.
  destruct (regexp.imageRe_FindStringSubmatch1 text); cbn; [done|].
  by rewrite app_nil_r.
Qed.

Lemma NewFile_scan_attachments (lines : list string) (acc : string * list string) :
  (foldl NewFile_line acc lines).2 =
  acc.2 ++ omap regexp.imageRe_FindStringSubmatch1 lines.
Proof.
  revert acc. induction lines as [|l lines IH]; intros acc; cbn [foldl].
  - by rewrite app_nil_r.
  - rewrite IH, NewFile_line_attachments, <-app_assoc. f_equal. cbn.
    by destruct (regexp.imageRe_FindStringSubmatch1 l).
Qed.

(** NewFile collects, in the order of the lines, the image target that
    [imageRe] finds on each scanned line: one attachment for each line with
    a match, none for the other lines. *)
Theorem NewFile_attachments {St : Type} `{Fs St} (w : World St) (path content : string)
    (close : option error) :
  Open (wfs w) path = OpenFile content close →
  ∃ f, (NewFile w path).2 = inr f ∧
       Attachments f = omap regexp.imageRe_FindStringSubmatch1 (bufio.ScanLines content).
Proof.
  intros Ho. unfold NewFile. rewrite Ho.
  destruct (NewFile_scan (bufio.ScanLines content)) as [title atts] eqn:Hs.
  eexists. split; [done|]. cbn [Attachments].
  pose proof (NewFile_scan_attachments (bufio.ScanLines content) ("", [])) as Ha.
  unfold NewFile_scan in Hs. by rewrite Hs in Ha.
Qed.

Lemma NewFile_attachments_witness :
  ∃ f, (NewFile (world0 sample_fs) "sample.md").2 = inr f ∧
       Attachments f = ["images/sample.png"].
Proof.
  destruct (NewFile_attachments (world0 sample_fs) "sample.md" sample_md None)
    as (f & Hf & Ha); [by vm_compute|].
  exists f. split; [done|]. rewrite Ha. by vm_compute.
Defined.

(** *** The image expression on a line *)

Lemma HasPrefix_two (a b : ascii) (x : string) :
  gostrings.HasPrefix (String a (String b x)) (String a (String b "")) = true.
Proof. by rewrite !HasPrefix_cons, HasPrefix_nil, !bool_decide_eq_true_2. Qed.

Lemma image_rest_none (x : string) :
  all_chars (λ c, negb (bool_decide (c = "]"%char))) x = true →
  regexp.image_rest x = None.
Proof.
  induction x as [|c x IH]; [done|]. cbn [all_chars].
  intros [Hc Hx]%andb_true_iff. apply negb_true_iff, bool_decide_eq_false in Hc.
  cbn [regexp.image_rest]. rewrite (IH Hx).
  rewrite HasPrefix_cons, (bool_decide_eq_false_2 (c = "]"%char)) by done.
  by destruct (bool_decide (c = newline)).
Qed.

Lemma image_target_none (x : string) :
  all_chars (λ c, negb (bool_decide (c = ")"%char))) x = true →
  regexp.image_target x = None.
Proof.
  induction x as [|c x IH]; [done|]. cbn [all_chars].
  intros [Hc Hx]%andb_true_iff. cbn [regexp.image_target]. rewrite (IH Hx).
  destruct (bool_decide (c = newline)); [done|].
  destruct x as [|d x]; [done|]. cbn [all_chars] in Hx.
  apply andb_true_iff in Hx as [Hd _].
  apply negb_true_iff, bool_decide_eq_false in Hd.
  by rewrite HasPrefix_cons, (bool_decide_eq_false_2 (d = ")"%char)).
Qed.

Lemma image_target_some (t post : string) :
  t ≠ "" →
  all_chars (λ c, not_newline c && negb (bool_decide (c = ")"%char))) t = true →
  all_chars (λ c, negb (bool_decide (c = ")"%char))) post = true →
  regexp.image_target (t +:+ ")" +:+ post) = Some t.
Proof.
  intros Hne Ht Hpost. induction t as [|c t IH]; [done|].
  cbn [all_chars] in Ht. apply andb_true_iff in Ht as [Hc Ht].
  apply andb_true_iff in Hc as [Hc1 Hc2]. apply negb_true_iff in Hc1.
  rewrite sapp_cons. cbn [regexp.image_target]. rewrite Hc1.
  destruct t as [|d t].
  - change ("" +:+ ")" +:+ post) with (String ")" post).
    cbn [regexp.image_target].
    rewrite (bool_decide_eq_false_2 (")"%char = newline)) by done.
    rewrite (image_target_none post) by done.
    assert (gostrings.HasPrefix post ")" = false) as ->.
    { destruct post as [|e post]; [done|]. cbn [all_chars] in Hpost.
      apply andb_true_iff in Hpost as [He _].
      apply negb_true_iff, bool_decide_eq_false in He.
      by rewrite HasPrefix_cons, (bool_decide_eq_false_2 (e = ")"%char)). }
    by rewrite HasPrefix_cons, HasPrefix_nil, bool_decide_eq_true_2.
  - by rewrite IH.
Qed.

Lemma image_rest_some (mid t post : string) :
  all_chars not_newline mid = true →
  t ≠ "" →
  all_chars (λ c, not_newline c && negb (gostrings.mem_char c "])")) t = true →
  all_chars (λ c, negb (gostrings.mem_char c "])")) post = true →
  regexp.image_rest (mid +:+ "](" +:+ t +:+ ")" +:+ post) = Some t.
Proof.
  intros Hmid Hne Ht Hpost.
  assert (∀ c, negb (gostrings.mem_char c "])") = true →
    negb (bool_decide (c = "]"%char)) = true ∧ negb (bool_decide (c = ")"%char)) = true)
    as Hmem.
  { intros c. cbn [gostrings.mem_char]. repeat case_decide; subst;
      rewrite ?bool_decide_eq_true_2, ?bool_decide_eq_false_2 by done; done. }
  induction mid as [|c mid IH].
  - change ("" +:+ "](" +:+ t +:+ ")" +:+ post)
      with (String "]" (String "(" (t +:+ ")" +:+ post))).
    cbn [regexp.image_rest regexp.drop2].
    rewrite (bool_decide_eq_false_2 ("]"%char = newline)) by done.
    rewrite (bool_decide_eq_false_2 ("("%char = newline)) by done.
    rewrite (image_rest_none (t +:+ ")" +:+ post)).
    + change (gostrings.HasPrefix (String "(" (t +:+ ")" +:+ post)) "](") with false.
      rewrite (HasPrefix_two "]" "(").
      apply image_target_some; [done| |].
      * eapply all_chars_impl; [|done]. intros c [? Hc]%andb_true_iff.
        apply andb_true_iff. split; [done|]. by apply Hmem.
      * eapply all_chars_impl; [|done]. intros c Hc. by apply Hmem.
    + rewrite !all_chars_app. cbn [all_chars].
      rewrite (bool_decide_eq_false_2 (")"%char = "]"%char)) by done. cbn [negb andb].
      apply andb_true_iff. split.
      * eapply all_chars_impl; [|done]. intros c [? Hc]%andb_true_iff. by apply Hmem.
      * eapply all_chars_impl; [|done]. intros c Hc. by apply Hmem.
  - cbn [all_chars] in Hmid. apply andb_true_iff in Hmid as [Hc Hmid].
    apply negb_true_iff in Hc.
    rewrite sapp_cons. cbn [regexp.image_rest]. by rewrite Hc, IH.
Qed.

Lemma drop2_app (y z : string) :
  2 ≤ String.length y → regexp.drop2 (y +:+ z) = regexp.drop2 y +:+ z.
Proof. destruct y as [|a [|b y]]; cbn [String.length]; [lia..|done]. Qed.

Lemma all_chars_drop2 p (y : string) :
  all_chars p y = true → all_chars p (regexp.drop2 y) = true.
Proof.
  destruct y as [|a [|b y]]; [done..|]. cbn [all_chars regexp.drop2].
  by intros [_ [_ ?]%andb_true_iff]%andb_true_iff.
Qed.

Lemma imageRe_none (line : string) :
  gostrings.Contains line "![" = false →
  regexp.imageRe_FindStringSubmatch1 line = None.
Proof.
  induction line as [|c line IH]; [done|].
  rewrite Contains_cons. intros [Hp Hc]%orb_false_iff.
  cbn [regexp.imageRe_FindStringSubmatch1]. rewrite Hp. by apply IH.
Qed.

(** On a line the image expression yields the target of the last image: for
    a line [pre![mid](target)post] in which [target] is not empty and has
    neither a bracket [ ] ] nor a parenthesis [ ) ], and [post] has none of
    them either, the attachment is [target], whatever stands before,
    earlier images included.  A line without [![] has no attachment. *)
Theorem imageRe_last_target (pre mid target post : string) :
  all_chars not_newline (pre +:+ "![" +:+ mid) = true →
  target ≠ "" →
  all_chars (λ c, not_newline c && negb (gostrings.mem_char c "])")) target = true →
  all_chars (λ c, negb (gostrings.mem_char c "])")) post = true →
  regexp.imageRe_FindStringSubmatch1
    (pre +:+ "![" +:+ mid +:+ "](" +:+ target +:+ ")" +:+ post) = Some target ∧
  ∀ line, gostrings.Contains line "![" = false →
          regexp.imageRe_FindStringSubmatch1 line = None.
Proof.
  intros Hline Hne Ht Hpost. split; [|apply imageRe_none].
  assert (∀ y, 2 ≤ String.length y → all_chars not_newline y = true →
    regexp.image_rest
      (regexp.drop2 (y +:+ "](" +:+ target +:+ ")" +:+ post)) = Some target) as Hrest.
  { intros y Hy Hyn. rewrite drop2_app by done.
    apply image_rest_some; [by apply all_chars_drop2|done..]. }
  induction pre as [|c pre IH].
  - rewrite sapp_nil_l in *.
    change ("![" +:+ mid +:+ "](" +:+ target +:+ ")" +:+ post)
      with (String "!" (String "[" (mid +:+ "](" +:+ target +:+ ")" +:+ post))).
    cbn [regexp.imageRe_FindStringSubmatch1]. rewrite (HasPrefix_two "!" "[").
    cbn [regexp.drop2]. rewrite image_rest_some; [done| |done..].
    change ("![" +:+ mid) with (String "!" (String "[" mid)) in Hline.
    cbn [all_chars] in Hline.
    by apply andb_true_iff in Hline as [_ [_ ?]%andb_true_iff].
  - rewrite sapp_cons in Hline. cbn [all_chars] in Hline.
    apply andb_true_iff in Hline as [Hc Hline].
    rewrite sapp_cons. cbn [regexp.imageRe_FindStringSubmatch1].
    destruct (gostrings.HasPrefix _ "![") eqn:Hp; [|by rewrite IH].
    rewrite <-sapp_cons.
    replace (String c pre +:+ "![" +:+ mid +:+ "](" +:+ target +:+ ")" +:+ post)
      with ((String c pre +:+ "![" +:+ mid) +:+ "](" +:+ target +:+ ")" +:+ post)
      by (by rewrite !sapp_assoc).
    rewrite Hrest; [done| |].
    + rewrite !sapp_length. cbn. lia.
    + rewrite sapp_cons. cbn [all_chars]. by rewrite Hc, Hline.
Qed.

Lemma imageRe_last_target_witness :
  regexp.imageRe_FindStringSubmatch1 "![one](a.png) and ![two](images/b.png)." =
  Some "images/b.png".
Proof.
  destruct (imageRe_last_target "" "one](a.png) and ![two" "images/b.png" ".")
    as [Hlast _]; [by vm_compute | done | by vm_compute | by vm_compute |].
  exact Hlast.
Defined.

(** *** The title *)

Lemma TrimLeft_head (s cutset : string) :
  match gostrings.TrimLeft s cutset with
  | EmptyString => True
  | String c _ => gostrings.mem_char c cutset = false
  end.
Proof.
  induction s as [|c s IH]; [done|]. cbn [gostrings.TrimLeft].
  destruct (gostrings.mem_char c cutset) eqn:Hc; [done|]. done.
Qed.

Lemma TrimLeft_all_chars p (s cutset : string) :
  all_chars p s = true → all_chars p (gostrings.TrimLeft s cutset) = true.
Proof.
  induction s as [|c s IH]; [done|]. cbn [gostrings.TrimLeft].
  destruct (gostrings.mem_char c cutset); [|done]. cbn [all_chars].
  intros [_ ?]%andb_true_iff. by apply IH.
Qed.

Lemma titleRe_FindString_no_newline (text : string) :
  all_chars not_newline (regexp.titleRe_FindString text) = true.
Proof.
  induction text as [|c text IH]; [done|]. cbn [regexp.titleRe_FindString].
  case_bool_decide as Hc; [|done]. subst c. cbn [all_chars].
  by rewrite until_newline_free.
Qed.

Lemma NewFile_scan_title_source (lines : list string) (acc : string * list string) :
  (foldl NewFile_line acc lines).1 = acc.1 ∨
  ∃ l, l ∈ lines ∧ (foldl NewFile_line acc lines).1 = heading_text l.
Proof.
  revert acc. induction lines as [|l lines IH]; intros acc; [by left|].
  cbn [foldl]. destruct (IH (NewFile_line acc l)) as [Heq|(l' & Hl' & Heq)].
  - rewrite Heq, NewFile_line_title. case_bool_decide; [|by left].
    right. exists l. split; [left|done].
  - right. exists l'. split; [by right|done].
Qed.

(** The title NewFile extracts has no newline, and when it is not empty it
    begins with a character that is neither a space nor a [#]. *)
Theorem NewFile_title_shape {St : Type} `{Fs St} (w : World St) (path : string)
    (f : File) :
  (NewFile w path).2 = inr f →
  all_chars not_newline (Title f) = true ∧
  match Title f with
  | EmptyString => True
  | String c _ => c ≠ " "%char ∧ c ≠ "#"%char
  end.
Proof.
  intros Hf.
  assert (∃ lines, Title f = (NewFile_scan lines).1) as [lines Ht].
  { revert Hf. unfold NewFile.
    destruct (Open (wfs w) path) as [e|content close|names close]; [done|..].
    - destruct (NewFile_scan (bufio.ScanLines content)) as [t a] eqn:Hs.
      intros [= <-]. exists (bufio.ScanLines content). by rewrite Hs.
    - intros [= <-]. by exists []. }
  rewrite Ht. unfold NewFile_scan.
  destruct (NewFile_scan_title_source lines ("", [])) as [->|(l & _ & ->)]; [done|].
  unfold heading_text. split.
  - apply TrimLeft_all_chars, titleRe_FindString_no_newline.
  - pose proof (TrimLeft_head (regexp.titleRe_FindString l) " #") as Hh.
    destruct (gostrings.TrimLeft _ _) as [|c t]; [done|].
    cbn [gostrings.mem_char] in Hh. repeat case_decide; naive_solver.
Qed.

Lemma NewFile_title_shape_witness :
  ∃ f, (NewFile (world0 sample_fs) "sample.md").2 = inr f ∧
       all_chars not_newline (Title f) = true.
Proof.
  exists {| Path := "sample.md"; Title := "Sample file for testing purpose";
            Attachments := ["images/sample.png"] |}.
  assert ((NewFile (world0 sample_fs) "sample.md").2 =
          inr {| Path := "sample.md"; Title := "Sample file for testing purpose";
                 Attachments := ["images/sample.png"] |}) as Hf by (by vm_compute).
  split; [done|]. by destruct (NewFile_title_shape (world0 sample_fs) "sample.md" _ Hf).
Defined.

(** ** parseFiles and cleanupList *)

Lemma omap_length_le {A B : Type} (g : A → option B) (l : list A) :
  length (omap g l) ≤ length l.
Proof. induction l as [|x l IH]; [done|]. cbn. destruct (g x); cbn; lia. Qed.

Section parse.
Context {St : Type} `{Fs St}.

Lemma NewFile_fs (w : World St) (path : string) : wfs (NewFile w path).1 = wfs w.
Proof.
  unfold NewFile. destruct (Open (wfs w) path) as [e|content close|names close];
    [done|destruct (NewFile_scan _)..]; by destruct close.
Qed.

(** The result of NewFile depends on the file system alone. *)
Lemma NewFile_result (w w' : World St) (path : string) :
  wfs w = wfs w' → (NewFile w path).2 = (NewFile w' path).2.
Proof.
  intros Hfs. unfold NewFile. rewrite Hfs.
  destruct (Open (wfs w') path) as [e|content close|names close];
    [done|by destruct (NewFile_scan _)..].
Qed.

Lemma NewFile_Path (w : World St) (path : string) (f : File) :
  (NewFile w path).2 = inr f → Path f = path.
Proof.
  unfold NewFile. destruct (Open (wfs w) path) as [e|content close|names close];
    [done|..].
  - destruct (NewFile_scan _). by intros [= <-].
  - by intros [= <-].
Qed.

Lemma NewFile_fails (w : World St) (path : string) :
  (∃ err, (NewFile w path).2 = inl err) ↔ (∃ err, Open (wfs w) path = OpenErr err).
Proof.
  unfold NewFile. destruct (Open (wfs w) path) as [e|content close|names close].
  - split; eauto.
  - destruct (NewFile_scan _). split; by intros [? ?].
  - split; by intros [? ?].
Qed.

(** One round of the loop of parseFiles. *)
Lemma parseFiles_cons (file : string) (rest : list string) (w : World St) :
  ∃ w1, wfs w1 = wfs w ∧ wlog w1 = wlog w ++ parse_log (wfs w) file ∧
    parseFiles (file :: rest) w =
    match (NewFile w file).2 with
    | inl _ => parseFiles rest w1
    | inr md => ((parseFiles rest w1).1, md :: (parseFiles rest w1).2)
    end.
Proof.
  cbn [parseFiles]. unfold NewFile, parse_log.
  destruct (Open (wfs w) file) as [e|content close|names close].
  - by exists (logf ("Skipping " +:+ file +:+ ": " +:+
                      wrap "failed to open a source file" e) w).
  - destruct (NewFile_scan _) as [title atts].
    exists (NewFile_deferred close file w). split_and!.
    + by destruct close.
    + destruct close; [done|]. cbn. by rewrite app_nil_r.
    + cbn [snd]. by destruct (parseFiles rest _).
  - exists (NewFile_deferred close file w). split_and!.
    + by destruct close.
    + destruct close; [done|]. cbn. by rewrite app_nil_r.
    + cbn [snd NewFile_scan foldl]. by destruct (parseFiles rest _).
Qed.

Lemma parseFiles_fs (files : list string) (w : World St) :
  wfs (parseFiles files w).1 = wfs w.
Proof.
  revert w. induction files as [|file rest IH]; intros w; [done|].
  destruct (parseFiles_cons file rest w) as (w1 & Hfs1 & _ & ->).
  destruct ((NewFile w file).2); cbn [fst]; by rewrite IH.
Qed.

(** parseFiles never fails and never changes the file system; it returns,
    in the order of the input, the parsed file of each path that can be
    opened and drops the others: the paths of the result are the paths that
    can be opened.  To the log it adds, path by path, the line for a path
    that is skipped and the line of NewFile for a file that fails to
    close. *)
Theorem parseFiles_skips_unreadable (files : list string) (w : World St) :
  wfs (parseFiles files w).1 = wfs w ∧
  (parseFiles files w).2 =
    omap (λ path, match (NewFile w path).2 with
                  | inr md => Some md
                  | inl _ => None
                  end) files ∧
  Path <$> (parseFiles files w).2 =
    filter (λ path, can_open (wfs w) path = true) files ∧
  wlog (parseFiles files w).1 = wlog w ++ (files ≫= parse_log (wfs w)).
Proof.
  revert w. induction files as [|file rest IH]; intros w.
  { cbn. by rewrite app_nil_r. }
  destruct (parseFiles_cons file rest w) as (w1 & Hfs1 & Hlog1 & ->).
  destruct (IH w1) as (Hfs & Hres & Hpaths & Hlog).
  assert (omap (λ path, match (NewFile w1 path).2 with
                        | inr md => Some md
                        | inl _ => None
                        end) rest =
          omap (λ path, match (NewFile w path).2 with
                        | inr md => Some md
                        | inl _ => None
                        end) rest) as Hsame.
  { apply list_omap_ext, Forall_Forall2_diag, Forall_forall. intros path _.
    by rewrite (NewFile_result w1 w path Hfs1). }
  destruct ((NewFile w file).2) as [err|md] eqn:Hn.
  - split_and!.
    + by rewrite Hfs.
    + rewrite Hres. cbn. by rewrite Hn.
    + rewrite Hpaths, Hfs1, filter_cons_False; [done|].
      assert (∃ e, (NewFile w file).2 = inl e) as Hex by eauto.
      apply NewFile_fails in Hex as [e He]. unfold can_open. by rewrite He.
    + rewrite Hlog, Hlog1, Hfs1. cbn. by rewrite app_assoc.
  - cbn [fst snd]. split_and!.
    + by rewrite Hfs.
    + cbn. by rewrite Hn, Hres, Hsame.
    + cbn [fmap list_fmap]. rewrite filter_cons_True.
      * f_equal; [by eapply NewFile_Path|]. by rewrite <-Hfs1.
      * unfold can_open. destruct (Open (wfs w) file) as [e| |] eqn:He; [|done..].
        assert (∃ e, (NewFile w file).2 = inl e) as [e' He'];
          [apply NewFile_fails; eauto|]. by rewrite Hn in He'.
    + rewrite Hlog, Hlog1, Hfs1. cbn. by rewrite app_assoc.
Qed.

End parse.

(** A run over a file whose handle fails to close and a path at which there
    is nothing: the file is parsed all the same, and both leave a line in
    the log. *)
Example parseFiles_close_failure :
  let r := parseFiles ["sample.md"; "ghost.md"] (world0 stuck_handle_fs) in
  r.2 = [sample_file] ∧
  wlog r.1 =
    ["[ERROR] Failed to close the file: sample.md";
     "Skipping ghost.md: failed to open a source file: open ghost.md: no such file or directory"].
Proof. by vm_compute. Qed.

Lemma elem_of_cleanupList (files : list File) (d : string) :
  d ∈ cleanupList files ↔
  ∃ file, file ∈ files ∧
    (d = filepath.Dir (Path file) ∨
     ∃ attachment, attachment ∈ Attachments file ∧
       d = filepath.Join (filepath.Dir (Path file)) (filepath.Dir attachment)).
Proof.
  unfold cleanupList. rewrite elem_of_remove_dups, list_elem_of_bind.
  split; intros (file & H1 & H2).
  - exists file. unfold cleanupList_dirs in H1.
    apply elem_of_cons in H1 as [->|H1]; [by split; [|left]|].
    apply list_elem_of_fmap in H1 as (a & -> & Ha). split; [done|]. right. eauto.
  - exists file. split; [|done]. unfold cleanupList_dirs.
    destruct H2 as [->|(a & Ha & ->)]; [left|right].
    apply list_elem_of_fmap. eauto.
Qed.

(** cleanupList holds, each once, the directory of every file and, for
    every attachment of a file, the directory of the attachment below the
    directory of the file; nothing else. *)
Theorem cleanupList_dirs_of_batch (files : list File) :
  NoDup (cleanupList files) ∧
  ∀ d, d ∈ cleanupList files ↔
    ∃ file, file ∈ files ∧
      (d = filepath.Dir (Path file) ∨
       ∃ attachment, attachment ∈ Attachments file ∧
         d = filepath.Join (filepath.Dir (Path file)) (filepath.Dir attachment)).
Proof. split; [apply NoDup_remove_dups|apply elem_of_cleanupList]. Qed.

(** ** cleanUp and the order of its input *)

Lemma sort_reverse_permutation (keys keys' : list string) :
  keys ≡ₚ keys' → sort_reverse keys = sort_reverse keys'.
Proof.
  intros Hp. unfold sort_reverse.
  assert (Transitive (flip String.le)) as Htrans.
  { intros x y z Hxy Hyz. unfold flip in *. by etrans. }
  assert (AntiSymm (=) (flip String.le)) as Hanti.
  { intros x y Hxy Hyx. unfold flip in *. by apply (anti_symm String.le). }
  assert (Total (flip String.le)) as Htotal.
  { intros x y. destruct (total String.le x y); [right|left]; done. }
  apply (Sorted_unique (flip String.le)).
  - by apply Sorted_merge_sort.
  - by apply Sorted_merge_sort.
  - by rewrite !merge_sort_Permutation.
Qed.

(** The outcome of cleanUp does not depend on the order in which the
    candidate directories are handed over (cleanupList takes them from a Go
    map, whose iteration order is not fixed). *)
Theorem cleanUp_order_irrelevant {St : Type} `{Fs St} (fs : St)
    (keys keys' : list string) :
  keys ≡ₚ keys' → cleanUp fs keys = cleanUp fs keys'.
Proof. intros Hp. unfold cleanUp. by rewrite (sort_reverse_permutation _ _ Hp). Qed.

Lemma cleanUp_order_irrelevant_witness :
  cleanUp sample_fs ["images"; "."; "folder"] = cleanUp sample_fs ["folder"; "images"; "."].
Proof.
  apply (cleanUp_order_irrelevant sample_fs).
  change ["images"; "."; "folder"] with (["images"; "."] ++ ["folder"]).
  change ["folder"; "images"; "."] with (["folder"] ++ ["images"; "."]).
  apply Permutation_app_comm.
Defined.

(** cleanUp changes the file system through [Remove] on candidate
    directories only: on a file system where removing a name leaves every
    other path as it is, a path that is not among the candidates has the
    same [Stat] before and after. *)
Theorem cleanUp_touches_candidates_only {St : Type} `{Fs St} (fs : St)
    (keys : list string) (p : string) :
  (∀ (fs0 fs1 : St) (d q : string) (r : option error),
     Remove fs0 d = (fs1, r) → filepath.Clean q ≠ filepath.Clean d →
     Stat fs1 q = Stat fs0 q) →
  Forall (λ d, filepath.Clean p ≠ filepath.Clean d) keys →
  Stat (cleanUp fs keys).1 p = Stat fs p.
Proof.
  intros Hremove Hkeys. unfold cleanUp.
  assert (Forall (λ d, filepath.Clean p ≠ filepath.Clean d) (sort_reverse keys)) as Hs.
  { unfold sort_reverse. by rewrite merge_sort_Permutation. }
  clear Hkeys. revert fs. induction Hs as [|d rest Hd _ IH]; intros fs; [done|].
  cbn [cleanUp_loop]. destruct (negb _); [apply IH|].
  destruct (afero.IsEmpty fs d) as [[] [e|]]; [done| |done|apply IH].
  destruct (Remove fs d) as [fs' [e|]] eqn:Hr; cbn [fst].
  - by eapply Hremove.
  - rewrite IH. by eapply Hremove.
Qed.

Lemma MemFs_remove_frame (s s' : gmap string MemFs.node) (d q : string)
    (r : option error) :
  MemFs.remove s d = (s', r) → filepath.Clean q ≠ filepath.Clean d →
  MemFs.stat s' q = MemFs.stat s q.
Proof.
  unfold MemFs.remove, MemFs.stat, MemFs.find. intros Hr Hne.
  destruct (MemFs.is_root (filepath.Clean q)); [done|].
  assert (s' = s ∨ s' = delete (filepath.Clean d) s) as [->| ->].
  { revert Hr. repeat case_match; intros [= <- <-]; eauto. }
  - done.
  - by rewrite lookup_delete_ne.
Qed.

Lemma cleanUp_touches_candidates_only_witness :
  Stat (cleanUp sample_fs ["folder"; "images"]).1 "sample.md" =
  Stat sample_fs "sample.md".
Proof.
  apply (cleanUp_touches_candidates_only sample_fs ["folder"; "images"] "sample.md").
  - intros fs0 fs1 d q r. apply MemFs_remove_frame.
  - repeat constructor; by vm_compute.
Defined.

(** ** replaceTemplates *)

Lemma Replace_go_absent (old new : string) (n : option nat) (s : string) :
  gostrings.Contains s old = false → gostrings.Replace_go old new n 0 s = s.
Proof.
  induction s as [|c s IH]; [done|]. rewrite Contains_cons.
  intros [Hp Hc]%orb_false_iff. cbn [gostrings.Replace_go]. rewrite Hp, (IH Hc).
  by destruct n as [[]|].
Qed.

Lemma count_sep_app (a b : string) : count_sep (a +:+ b) = count_sep a + count_sep b.
Proof.
  induction a as [|c a IH]; [done|]. rewrite sapp_cons. cbn [count_sep].
  rewrite IH. lia.
Qed.

Lemma count_sep_underscore_separators (title : string) :
  count_sep (underscore_separators title) = 0.
Proof.
  induction title as [|c title IH]; [done|].
  cbn [underscore_separators count_sep]. rewrite IH.
  unfold filepath.is_sep. destruct (bool_decide (c = filepath.Separator)) eqn:Hc.
  - done.
  - by rewrite Hc.
Qed.

(** A template without the placeholder is left as it is, and in every case
    the result has as many path separators as the template: the title adds
    no directory level to the destination. *)
Theorem replaceTemplates_separators (tpl title : string) :
  (gostrings.Contains tpl "%title%" = false → replaceTemplates tpl title = tpl) ∧
  count_sep (replaceTemplates tpl title) = count_sep tpl.
Proof.
  assert (gostrings.Contains tpl "%title%" = false → replaceTemplates tpl title = tpl)
    as Habsent.
  { intros Hc. unfold replaceTemplates, gostrings.Replace.
    by apply Replace_go_absent. }
  split; [done|].
  destruct (gostrings.Contains tpl "%title%") eqn:Hc; [|by rewrite Habsent].
  destruct (Replace_first tpl "%title%") as (pre & post & -> & _ & Hrep); [done..|].
  unfold replaceTemplates. rewrite ReplaceAll_separator, Hrep.
  rewrite !count_sep_app, count_sep_underscore_separators. done.
Qed.

(** ** The entry point *)

Section entry_properties.
Context {St : Type} `{Fs St}.
Variable Glob : St → string → list string * option error.

(** findFiles never hands over an empty batch without an error.  A source
    that is neither a directory nor has a [*] is the batch, as it is,
    whether or not there is a file at it.  In the other cases the batch is
    what Glob finds for the pattern, which is [<dir>/*.md] for a directory
    and the source itself for a source with a [*]: when Glob finds nothing
    the error is "no markdown files found", whatever the error of Glob, and
    otherwise the files are handed on together with the error of Glob. *)
Theorem findFiles_batch (fs : St) (path : string) :
  (∀ files, findFiles Glob fs path = (files, None) → files ≠ []) ∧
  (isDir fs path = false → gostrings.Contains path "*" = false →
   findFiles Glob fs path = ([path], None)) ∧
  (∀ pattern,
     isDir fs path = true ∧ pattern = path +:+ "/*.md" ∨
     isDir fs path = false ∧ gostrings.Contains path "*" = true ∧ pattern = path →
     ((Glob fs pattern).1 = [] →
      findFiles Glob fs path = ([], Some errNoFilesFound)) ∧
     ((Glob fs pattern).1 ≠ [] → findFiles Glob fs path = Glob fs pattern)).
Proof.
  unfold findFiles. split_and!.
  - intros files. destruct (gostrings.Contains _ "*"); [|by intros [= <-]].
    destruct (Glob fs _) as [fs' err]. case_bool_decide; [done|]. by intros [= <- _].
  - intros -> ->. done.
  - intros pattern Hcase.
    assert ((if isDir fs path then path +:+ "/*.md" else path) = pattern ∧
            gostrings.Contains pattern "*" = true) as [-> ->].
    { destruct Hcase as [[-> ->]|(-> & Hc & ->)]; [|done].
      split; [done|]. rewrite Contains_app_r; [done|]. by vm_compute. }
    destruct (Glob fs pattern) as [files err]. cbn [fst]. split.
    + intros ->. by rewrite bool_decide_eq_true_2.
    + intros Hne. by rewrite bool_decide_eq_false_2.
Qed.

Lemma moveFiles_wrong_template_fs (files : list File) (dest : string) (w : World St) :
  gostrings.Contains dest "%" = true →
  gostrings.Contains dest "%title%" = false →
  ∃ err, moveFiles files dest w = (w, files, Some err).
Proof.
  intros H1 H2. unfold moveFiles. case_bool_decide; [eauto|].
  rewrite (isTemplate_wrong _ H1 H2). eauto.
Qed.

(** With a destination that has a [%] but not [%title%], mv fails and
    leaves the file system as it was: no file is moved and no directory is
    removed. *)
Theorem mv_wrong_template (src dest : string) (w : World St) :
  gostrings.Contains dest "%" = true →
  gostrings.Contains dest "%title%" = false →
  wfs (mv Glob src dest w).1 = wfs w ∧ is_Some (mv Glob src dest w).2.
Proof.
  intros H1 H2. unfold mv.
  destruct (findFiles Glob (wfs w) src) as [files [err|]]; [by eauto|].
  pose proof (parseFiles_fs files w) as Hfs.
  destruct (parseFiles files w) as [w1 mdFiles]. cbn [fst] in Hfs.
  destruct (moveFiles_wrong_template_fs mdFiles dest w1 H1 H2) as [err ->].
  cbn [fst snd]. eauto.
Qed.

(** A single source file that cannot be opened is skipped with a line in
    the log, and mv then fails with "no files to move", the file system
    being untouched. *)
Theorem mv_unreadable_source (src dest err : string) (w : World St) :
  isDir (wfs w) src = false →
  gostrings.Contains src "*" = false →
  Open (wfs w) src = OpenErr err →
  mv Glob src dest w =
  (logf ("Skipping " +:+ src +:+ ": " +:+ wrap "failed to open a source file" err) w,
   Some errNoFilesToMove).
Proof.
  intros Hd Hc Ho. unfold mv, findFiles. rewrite Hd, Hc.
  cbn [parseFiles]. unfold NewFile. rewrite Ho. by cbn.
Qed.

End entry_properties.

(** ** Batches *)

Section batches.
Context {St : Type} `{Fs St}.

Lemma for_each_file_app (method : File → World St → World St * File * option error)
    (pre post : list File) (w : World St) :
  for_each_file method (pre ++ post) w =
  match for_each_file method pre w with
  | (w1, pre', Some err) => (w1, pre' ++ post, Some err)
  | (w1, pre', None) =>
      let '(w2, post', err) := for_each_file method post w1 in
      (w2, pre' ++ post', err)
  end.
Proof.
  revert w. induction pre as [|f pre IH]; intros w; cbn [app for_each_file].
  - by destruct (for_each_file method post w) as [[??]?].
  - destruct (method f w) as [[w1 f'] [err|]]; [done|]. rewrite IH.
    destruct (for_each_file method pre w1) as [[w2 pre'] [err|]]; [done|].
    by destruct (for_each_file method post w2) as [[??]?].
Qed.

(** For a destination without [%] that is an existing directory, moveFiles
    moves the files of the batch into it one after the other with
    MoveToDir, and the first failure ends the batch: the error is returned,
    the files moved before stay moved, the files after it are not touched. *)
Theorem moveFiles_directory (dest : string) (w : World St) :
  gostrings.Contains dest "%" = false →
  isDir (wfs w) dest = true →
  (∀ files, files ≠ [] →
     moveFiles files dest w = for_each_file (λ file, MoveToDir file dest) files w) ∧
  (∀ pre f post w1 pre' w2 f' err,
     for_each_file (λ file, MoveToDir file dest) pre w = (w1, pre', None) →
     MoveToDir f dest w1 = (w2, f', Some err) →
     moveFiles (pre ++ f :: post) dest w = (w2, pre' ++ f' :: post, Some err)).
Proof.
  intros Hp Hd.
  assert (∀ files, files ≠ [] →
    moveFiles files dest w = for_each_file (λ file, MoveToDir file dest) files w)
    as Hloop.
  { intros files Hne. unfold moveFiles.
    rewrite bool_decide_eq_false_2 by (by destruct files).
    by rewrite (isTemplate_plain _ Hp), Hd. }
  split; [done|].
  intros pre f post w1 pre' w2 f' err Hpre Hf.
  rewrite Hloop by (by destruct pre).
  rewrite for_each_file_app, Hpre. cbn [for_each_file]. by rewrite Hf.
Qed.

Lemma Move_receiver (f : File) (dest : string) (w : World St) :
  (Move f dest w).1.2 = f ∨ (Move f dest w).1.2 = set_Path dest f.
Proof.
  unfold Move.
  destruct (ensureDir _ dest) as [fs1 [e|]]; [by left|].
  destruct (Rename fs1 (Path f) dest) as [fs2 [e|]]; [by left|].
  cbv zeta. destruct (_ || _); by right.
Qed.

Lemma MoveToDir_receiver (f : File) (dirName : string) (w : World St) :
  (MoveToDir f dirName w).1.2 = f.
Proof.
  unfold MoveToDir. destruct (uniqueName w _) as [w1 d].
  destruct (Rename (wfs w1) (Path f) d) as [fs1 [e|]]; [done|].
  case_bool_decide; [done|].
  by destruct (MoveToDir_attachments _ _ _ _).
Qed.

Lemma for_each_file_metadata (method : File → World St → World St * File * option error)
    (files : list File) (w : World St) :
  (∀ f w0, Title (method f w0).1.2 = Title f ∧
           Attachments (method f w0).1.2 = Attachments f) →
  Title <$> (for_each_file method files w).1.2 = Title <$> files ∧
  Attachments <$> (for_each_file method files w).1.2 = Attachments <$> files.
Proof.
  intros Hm. revert w. induction files as [|f files IH]; intros w; [done|].
  cbn [for_each_file]. destruct (Hm f w) as [Ht Ha].
  destruct (method f w) as [[w1 f'] [err|]]; cbn [fst snd] in *.
  - cbn. by rewrite Ht, Ha.
  - destruct (IH w1) as [IHt IHa].
    destruct (for_each_file method files w1) as [[w2 rest'] err].
    cbn [fst snd] in *. cbn. by rewrite Ht, Ha, IHt, IHa.
Qed.

(** Whatever the destination and the outcome, moveFiles hands the batch
    back with the titles and the attachment lists it came with, file by
    file: moving changes at most the stored paths. *)
Theorem moveFiles_keeps_metadata (files : list File) (dest : string) (w : World St) :
  Title <$> (moveFiles files dest w).1.2 = Title <$> files ∧
  Attachments <$> (moveFiles files dest w).1.2 = Attachments <$> files.
Proof.
  assert (∀ d f w0, Title (Move f d w0).1.2 = Title f ∧
                    Attachments (Move f d w0).1.2 = Attachments f) as HMove.
  { intros d f w0. by destruct (Move_receiver f d w0) as [-> | ->]. }
  unfold moveFiles. case_bool_decide; [done|].
  destruct (isTemplate dest) as [tpl [err|]]; [done|].
  destruct tpl.
  { apply for_each_file_metadata. intros f w0. apply HMove. }
  destruct (isDir (wfs w) dest).
  { apply for_each_file_metadata. intros f w0. by rewrite MoveToDir_receiver. }
  case_bool_decide; [done|].
  destruct files as [|file0 rest]; [done|].
  destruct (HMove dest file0 w) as [Ht Ha].
  destruct (Move file0 dest w) as [[w1 file0'] [err|]]; cbn [fst snd] in *;
    cbn; by rewrite Ht, Ha.
Qed.

(** ** Move: the primary file *)

(** When the rename of the primary file fails, Move returns that error
    wrapped, leaves the receiver as it was (the stored path is not touched)
    and moves no attachment. *)
Theorem Move_rename_failure (f : File) (dest : string) (w : World St)
    (fs1 fs2 : St) (err : error) :
  ensureDir (wfs w) dest = (fs1, None) →
  Rename fs1 (Path f) dest = (fs2, Some err) →
  (Move f dest w).1.2 = f ∧
  (Move f dest w).2 = Some (wrap "failed to move the file" err) ∧
  wfs (Move f dest w).1.1 = fs2.
Proof.
  intros He Hr. unfold Move.
  destruct (afero.Exists (wfs w) dest) as [[] []]; cbn [wfs logf];
    by rewrite He, Hr.
Qed.

(** A move within one directory renames the primary file and nothing else:
    the attachments stay where they are, the stored path becomes the
    destination. *)
Theorem Move_same_directory (f : File) (dest : string) (w : World St)
    (fs1 fs2 : St) :
  filepath.Dir (Path f) = filepath.Dir dest →
  ensureDir (wfs w) dest = (fs1, None) →
  Rename fs1 (Path f) dest = (fs2, None) →
  (Move f dest w).1.2 = set_Path dest f ∧
  (Move f dest w).2 = None ∧
  wfs (Move f dest w).1.1 = fs2.
Proof.
  intros Hd He Hr. unfold Move.
  destruct (afero.Exists (wfs w) dest) as [[] []]; cbn [wfs logf];
    rewrite He, Hr; cbv zeta; by rewrite bool_decide_eq_true_2.
Qed.

(** Move writes to the log only the warning that the destination exists,
    and it writes it exactly when the destination exists (the rename then
    replaces that file). *)
Theorem Move_warns_on_overwrite (f : File) (dest : string) (w : World St) :
  wlog (Move f dest w).1.1 =
  wlog w ++
  (if bool_decide (afero.Exists (wfs w) dest = (true, None))
   then ["[WARN] file already exists " +:+ filepath.Base dest]
   else []).
Proof.
  unfold Move.
  assert (∀ w0 : World St,
    wlog (match ensureDir (wfs w0) dest with
          | (fs1, Some err) => (with_fs fs1 w0, f, Some err)
          | (fs1, None) =>
              match Rename fs1 (Path f) dest with
              | (fs2, Some err) =>
                  (with_fs fs2 w0, f, Some (wrap "failed to move the file" err))
              | (fs2, None) =>
                  let deferred (r : St * option error) := (with_fs r.1 w0, set_Path dest f, r.2) in
                  let dir := filepath.Dir (Path f) in
                  if bool_decide (dir = filepath.Dir dest)
                     || bool_decide (length (Attachments f) = 0)
                  then deferred (fs2, None)
                  else deferred (Move_attachments dir dest (Attachments f) fs2)
              end
          end).1.1 = wlog w0) as Hlog.
  { intros w0. destruct (ensureDir _ dest) as [fs1 [e|]]; [done|].
    destruct (Rename fs1 _ dest) as [fs2 [e|]]; [done|]. cbv zeta.
    by destruct (_ || _). }
  rewrite Hlog.
  destruct (afero.Exists (wfs w) dest) as [[] [e|]]; cbn [wlog logf];
    rewrite ?bool_decide_eq_true_2, ?bool_decide_eq_false_2 by done;
    by rewrite ?app_nil_r.
Qed.

(** ** uniqueName: a free name in the same directory *)

Lemma Exists_not_reported (fs : St) (path : string) :
  afero.Exists fs path ≠ (true, None) ↔ (afero.Exists fs path).1 = false.
Proof. unfold afero.Exists. by destruct (Stat fs path). Qed.

(** For a destination of ASCII bytes made of a directory and a file name:
    the existence check does not report the path that uniqueName returns
    (there is nothing at it, or the check of it fails); the path lies in
    the directory of the destination and is again of ASCII bytes;
    uniqueName logs one warning when the destination itself is reported as
    existing, and nothing otherwise. *)
Theorem uniqueName_fresh (w : World St) (dirName base : string) :
  plain base →
  all_chars gostrings.is_ascii (filepath.Join dirName base) = true →
  walk_complete (wfs w) →
  (afero.Exists (wfs w) (uniqueName w (filepath.Join dirName base)).2).1 = false ∧
  filepath.Dir (uniqueName w (filepath.Join dirName base)).2 =
    filepath.Dir (filepath.Join dirName base) ∧
  all_chars gostrings.is_ascii (uniqueName w (filepath.Join dirName base)).2 = true ∧
  wlog (uniqueName w (filepath.Join dirName base)).1 =
    wlog w ++
    (if bool_decide (afero.Exists (wfs w) (filepath.Join dirName base) = (true, None))
     then ["[WARN] File with the same name already exists: "
           +:+ filepath.Join dirName base]
     else []).
Proof.
  intros Hb Hascii Hwalk.
  destruct (Join_plain_shape dirName base Hb) as (r & out & Hn & Hdest).
  destruct (decide (afero.Exists (wfs w) (filepath.Join dirName base) = (true, None)))
    as [Hex|Hex].
  - destruct (suffixed_name_free base r out (wfs w) Hb Hn Hwalk)
      as (i & Hi & Hfree & Hbefore).
    assert (uniqueName w (filepath.Join dirName base) =
      (logf ("[WARN] File with the same name already exists: "
             +:+ filepath.Join dirName base) w,
       filepath.render r (suffixed_name base i :: out))) as ->.
    { unfold uniqueName. rewrite Nat.add_1_r, uniqueName_loop_eq, Hex.
      rewrite bool_decide_eq_true_2 by done. cbv zeta.
      rewrite Hdest at 2 3 4 5.
      rewrite (uniqueName_round base Hb r out base 1 Hn) by eauto.
      replace i with (1 + (i - 1)) by lia.
      apply uniqueName_loop_run; [done..|lia| |].
      - intros j Hj. cbn [wfs logf]. apply Hbefore. lia.
      - cbn [wfs logf]. by replace (1 + (i - 1)) with i by lia. }
    cbn [fst snd]. rewrite bool_decide_eq_true_2 by done.
    split_and!; [by apply Exists_not_reported| | |done].
    + rewrite Hdest, !Dir_render_push; [done..|by apply suffixed_name_plain].
    + rewrite Hdest in Hascii.
      destruct (render_push_chars gostrings.is_ascii r out base
                  (suffixed_name base i) Hn Hascii) as [Hbase Hpush].
      by apply Hpush, suffixed_name_ascii.
  - unfold uniqueName. rewrite uniqueName_loop_free by done.
    rewrite bool_decide_eq_false_2 by done. cbn [fst snd].
    rewrite app_nil_r. split_and!; [by apply Exists_not_reported|done..].
Qed.

End batches.

(** ** Runs on the in-memory file system *)

Lemma mv_wrong_template_witness :
  let r := mv MemFs_glob "sample.md" "%titl%/README.md" (world0 sample_fs) in
  wfs r.1 = sample_fs ∧ r.2 = Some errWrongTemplate.
Proof.
  destruct (mv_wrong_template MemFs_glob "sample.md" "%titl%/README.md"
              (world0 sample_fs)) as [Hfs _]; [by vm_compute..|].
  split; [exact Hfs|by vm_compute].
Defined.

Lemma mv_unreadable_source_witness :
  (mv MemFs_glob "ghost.md" "dest.md" (world0 sample_fs)).2 = Some errNoFilesToMove.
Proof.
  by rewrite (mv_unreadable_source MemFs_glob "ghost.md" "dest.md"
                "open ghost.md: no such file or directory" (world0 sample_fs))
    by (by vm_compute).
Defined.

Lemma moveFiles_directory_witness :
  moveFiles [sample_file] "folder" (world0 sample_fs) =
  for_each_file (λ file, MoveToDir file "folder") [sample_file] (world0 sample_fs).
Proof.
  destruct (moveFiles_directory "folder" (world0 sample_fs)) as [Hloop _];
    [by vm_compute..|].
  by apply Hloop.
Defined.

Lemma Move_rename_failure_witness :
  let r := Move ghost_file "dest.md" (world0 sample_fs) in
  r.1.2 = ghost_file ∧
  r.2 = Some "failed to move the file: rename ghost.md dest.md: no such file or directory".
Proof.
  destruct (Move_rename_failure ghost_file "dest.md" (world0 sample_fs)
              (ensureDir (wfs (world0 sample_fs)) "dest.md").1
              (Rename (ensureDir (wfs (world0 sample_fs)) "dest.md").1
                 (Path ghost_file) "dest.md").1
              "rename ghost.md dest.md: no such file or directory")
    as (Hf & Herr & _).
  - apply pair_snd_eq. by vm_compute.
  - apply pair_snd_eq. by vm_compute.
  - by split.
Defined.

Lemma Move_same_directory_witness :
  let r := Move sample_file "dest.md" (world0 sample_fs) in
  r.1.2 = set_Path "dest.md" sample_file ∧ r.2 = None.
Proof.
  destruct (Move_same_directory sample_file "dest.md" (world0 sample_fs)
              (ensureDir (wfs (world0 sample_fs)) "dest.md").1
              (Rename (ensureDir (wfs (world0 sample_fs)) "dest.md").1
                 (Path sample_file) "dest.md").1)
    as (Hf & Herr & _).
  - by vm_compute.
  - apply pair_snd_eq. by vm_compute.
  - apply pair_snd_eq. by vm_compute.
  - by split.
Defined.

Lemma uniqueName_fresh_witness :
  (afero.Exists collision_fs
     (uniqueName (world0 collision_fs) (filepath.Join "folder" "Index.md")).2).1
  = false.
Proof.
  destruct (uniqueName_fresh (world0 collision_fs) "folder" "Index.md") as [Hfree _].
  - unfold plain. by vm_compute.
  - by vm_compute.
  - apply MemFs_walk_complete.
  - exact Hfree.
Defined.
